(** * Posture monitor: angle calculator and calibration / alert session

    A shallow embedding of [main.py].

    - [Angle] is [calculate_angle] in exact arithmetic: over the real
      numbers, with [None] where a division by zero or an inverse cosine
      outside [-1, 1] would occur.
    - [Machine] is [calculate_angle] on the numbers NumPy computes with:
      int64 arrays that wrap around and float64 arrays that overflow to
      infinity and produce [nan].  On pixel coordinates the two agree
      ([pixels_exact]).
    - [Session] embeds the body of the main loop, one call of [iteration] per
      pass of [while cap.isOpened()], with the module-level variables of the
      script gathered in the record [State].  Angle samples, thresholds and
      [time.time()] stamps are floats in the script and exact rationals here,
      so that runs evaluate. *)

From Stdlib Require Import String List ZArith QArith Reals Bool Lia Lqa Lra.
Import ListNotations.

(* ================================================================== *)
(** ** Angle calculator ([calculate_angle], main.py 11-22)            *)
(* ================================================================== *)

Module Angle.
Local Open Scope R_scope.

(** A 2D point, the value of [np.array(a)] for a pair [a]. *)
Definition Point : Type := (R * R)%type.

(** [a - b] on arrays of shape (2,). *)
Definition vsub (a b : Point) : Point := (fst a - fst b, snd a - snd b).

(** [np.dot] on arrays of shape (2,). *)
Definition dot (u v : Point) : R := fst u * fst v + snd u * snd v.

(** [np.linalg.norm], the Euclidean length. *)
Definition norm (u : Point) : R := sqrt (fst u * fst u + snd u * snd u).

(** [x / y].  NumPy does not raise on a zero divisor: the quotient is then
    [inf] or [nan], rendered here as [None], "no finite number". *)
Definition divide (x y : R) : option R :=
  if Req_dec_T y 0 then None else Some (x / y).

(** [np.clip(x, lo, hi)] is [minimum(maximum(x, lo), hi)]. *)
Definition clip (x lo hi : R) : R := Rmin (Rmax x lo) hi.

(** [np.arccos], which is [nan] outside [-1, 1]. *)
Definition arccos (x : R) : option R :=
  if Rle_dec (-1) x then
    if Rle_dec x 1 then Some (acos x) else None
  else None.

(** [np.degrees]. *)
Definition degrees (x : R) : R := x * (180 / PI).

(** The literal [1e-6]. *)
Definition epsilon : R := 1 / 1000000.

(** The divisor of line 20: [norm(ba) * norm(bc) + 1e-6]. *)
Definition denominator (a b c : Point) : R :=
  let ba := vsub a b in
  let bc := vsub c b in
  norm ba * norm bc + epsilon.

(** [cosine_angle] of line 20. *)
Definition cosine_angle (a b c : Point) : option R :=
  let ba := vsub a b in
  let bc := vsub c b in
  divide (dot ba bc) (denominator a b c).

(** Lines 11-22.  [Some x]: the function returns the finite number [x]. *)
Definition calculate_angle (a b c : Point) : option R :=
  match cosine_angle a b c with
  | None => None
  | Some cosine =>
      match arccos (clip cosine (-1) 1) with
      | None => None
      | Some angle => Some (degrees angle)
      end
  end.

End Angle.

(* ================================================================== *)
(** ** Session: the main loop (main.py 41-125)                        *)
(* ================================================================== *)

Module Session.
Local Open Scope Q_scope.

(** [x < y] on numbers. *)
Definition Qltb (x y : Q) : bool := negb (Qle_bool y x).

Definition sum (xs : list Q) : Q := fold_left Qplus xs 0.

(** [np.mean] of a list.  On the empty list NumPy returns [nan]; the loop
    only takes the mean of the thirty collected samples. *)
Definition mean (xs : list Q) : Q := sum xs / inject_Z (Z.of_nat (length xs)).

(** The module-level variables the loop reads and assigns (lines 41-50). *)
Record State : Type := mkState {
  calibration_shoulder_angles : list Q;
  calibration_neck_angles : list Q;
  calibration_frames : nat;
  is_calibrated : bool;
  shoulder_threshold : Q;
  neck_threshold : Q;
  last_alert_time : Q
}.

(** Their values when the loop is entered. *)
Definition init : State :=
  {| calibration_shoulder_angles := [];
     calibration_neck_angles := [];
     calibration_frames := 0;
     is_calibrated := false;
     shoulder_threshold := 0;
     neck_threshold := 0;
     last_alert_time := 0 |}.

Definition alert_cooldown : Q := 10.
Definition sound_file : string := "alert.wav".

(** What one pass of the loop reads from its environment. *)
Record Frame : Type := mkFrame {
  isOpened : bool;                 (* cap.isOpened(), line 56 *)
  ret : bool;                      (* first component of cap.read(), line 57 *)
  pose_landmarks : option (Q * Q); (* None: no landmarks (line 65); Some: the
                                      shoulder_angle and neck_angle of lines 79-80 *)
  current_time : Q;                (* time.time(), line 103 *)
  sound_file_exists : bool;        (* os.path.exists(sound_file), line 109 *)
  waitKey : Z                      (* cv2.waitKey(1), line 124 *)
}.

(** What one pass of the loop writes: console lines, overlay text, sound. *)
Inductive Event : Type :=
| PutCalibrating (frames : nat)                      (* line 87 *)
| PrintCalibrationComplete (st nt : Q)               (* line 93 *)
| DrawOverlay (shoulder_angle neck_angle : Q)        (* lines 97-99 *)
| PrintPoorPosture                                   (* line 108 *)
| PlaySound (file : string)                          (* line 110 *)
| PutStatus (status : string)                        (* line 116 *)
| PutAngles (sa st na nt : Q)                        (* lines 117-120 *)
| ImShow.                                            (* line 123 *)

(** Lines 83-94. *)
Definition calibrate (s : State) (shoulder_angle neck_angle : Q)
  : State * list Event :=
  if negb (is_calibrated s) && (calibration_frames s <? 30)%nat then
    let frames := S (calibration_frames s) in
    (mkState (calibration_shoulder_angles s ++ [shoulder_angle])
             (calibration_neck_angles s ++ [neck_angle])
             frames
             (is_calibrated s) (shoulder_threshold s) (neck_threshold s)
             (last_alert_time s),
     [PutCalibrating frames])
  else if negb (is_calibrated s) then
    let st := mean (calibration_shoulder_angles s) - 10 in
    let nt := mean (calibration_neck_angles s) - 10 in
    (mkState (calibration_shoulder_angles s) (calibration_neck_angles s)
             (calibration_frames s)
             true st nt
             (last_alert_time s),
     [PrintCalibrationComplete st nt])
  else (s, []).

(** [playsound(file)]: the sound library raises when it cannot open the
    file, which is what the test of line 109 guards against. *)
Definition playsound (present : bool) (file : string) : option (list Event) :=
  if present then Some [PlaySound file] else None.

(** The assignment [last_alert_time = t]. *)
Definition set_last_alert_time (s : State) (t : Q) : State :=
  mkState (calibration_shoulder_angles s) (calibration_neck_angles s)
          (calibration_frames s) (is_calibrated s)
          (shoulder_threshold s) (neck_threshold s) t.

(** Lines 107-111, entered when the frame is classified as poor posture. *)
Definition alert (s : State) (f : Frame) : option (State * list Event) :=
  if Qltb alert_cooldown (current_time f - last_alert_time s) then
    match (if sound_file_exists f
           then playsound (sound_file_exists f) sound_file
           else Some []) with
    | None => None
    | Some played =>
        Some (set_last_alert_time s (current_time f), PrintPoorPosture :: played)
    end
  else Some (s, []).

(** The test of line 104. *)
Definition poor (s : State) (shoulder_angle neck_angle : Q) : bool :=
  Qltb shoulder_angle (shoulder_threshold s)
  || Qltb neck_angle (neck_threshold s).

(** Lines 102-120. *)
Definition feedback (s : State) (f : Frame) (shoulder_angle neck_angle : Q)
  : option (State * list Event) :=
  if is_calibrated s then
    let texts (s' : State) (status : string) :=
      [PutStatus status;
       PutAngles shoulder_angle (shoulder_threshold s')
                 neck_angle (neck_threshold s')] in
    if poor s shoulder_angle neck_angle then
      match alert s f with
      | None => None
      | Some (s', evs) => Some (s', evs ++ texts s' "Poor Posture"%string)
      end
    else Some (s, texts s "Good Posture"%string)
  else Some (s, []).

(** [cv2.waitKey(1) & 0xFF == ord('q')], line 124. *)
Definition quit_pressed (f : Frame) : bool := (Z.land (waitKey f) 255 =? 113)%Z.

(** One pass of the loop body, lines 57-125.  [None]: an exception escapes.
    The boolean tells whether the pass ends in [break]. *)
Definition iteration (s : State) (f : Frame)
  : option (State * list Event * bool) :=
  if negb (ret f) then Some (s, [], false)           (* continue *)
  else
    match pose_landmarks f with
    | None => Some (s, [ImShow], quit_pressed f)
    | Some (shoulder_angle, neck_angle) =>
        let '(s1, evs1) := calibrate s shoulder_angle neck_angle in
        match feedback s1 f shoulder_angle neck_angle with
        | None => None
        | Some (s2, evs2) =>
            Some (s2,
                  evs1 ++ [DrawOverlay shoulder_angle neck_angle] ++ evs2
                       ++ [ImShow],
                  quit_pressed f)
        end
    end.

(** The loop of lines 56-125 over the environment of its successive passes:
    the final state and the events of each pass that ran. *)
Fixpoint run (s : State) (fs : list Frame)
  : option (State * list (list Event)) :=
  match fs with
  | [] => Some (s, [])
  | f :: rest =>
      if isOpened f then
        match iteration s f with
        | None => None
        | Some (s1, evs, brk) =>
            if brk then Some (s1, [evs])
            else match run s1 rest with
                 | None => None
                 | Some (s2, tr) => Some (s2, evs :: tr)
                 end
        end
      else Some (s, [])
  end.

(** *** Observations on frames and traces *)

(** Whether the pass over [f] ends the loop. *)
Definition breaks (f : Frame) : bool := ret f && quit_pressed f.

(** The passes that run: up to the first closed capture or [break]. *)
Fixpoint executed (fs : list Frame) : list Frame :=
  match fs with
  | [] => []
  | f :: rest =>
      if isOpened f then f :: (if breaks f then [] else executed rest)
      else []
  end.

(** The angle pair a pass computes, if it computes one. *)
Definition sample (f : Frame) : list (Q * Q) :=
  if ret f then match pose_landmarks f with Some p => [p] | None => [] end
  else [].

Definition samples (fs : list Frame) : list (Q * Q) := flat_map sample fs.

Definition is_finalize (e : Event) : bool :=
  match e with PrintCalibrationComplete _ _ => true | _ => false end.

Definition is_alert (e : Event) : bool :=
  match e with PrintPoorPosture => true | _ => false end.

Definition is_playsound (e : Event) : bool :=
  match e with PlaySound _ => true | _ => false end.

Definition is_status (e : Event) : bool :=
  match e with PutStatus _ => true | _ => false end.

Definition is_collect (e : Event) : bool :=
  match e with PutCalibrating _ => true | _ => false end.

Definition is_display (e : Event) : bool :=
  match e with DrawOverlay _ _ | ImShow => true | _ => false end.

(** The frame [f] read where [alert.wav] is absent. *)
Definition mute (f : Frame) : Frame :=
  mkFrame (isOpened f) (ret f) (pose_landmarks f) (current_time f) false
          (waitKey f).

(** The status text a pass puts on the frame, if any. *)
Fixpoint status_of (evs : list Event) : option string :=
  match evs with
  | [] => None
  | PutStatus st :: _ => Some st
  | _ :: rest => status_of rest
  end.

(** How many passes of a trace print the calibration line. *)
Definition finalizations (tr : list (list Event)) : nat :=
  length (filter is_finalize (concat tr)).

(** For each pass of a trace, whether it printed the alert line. *)
Definition alerts (tr : list (list Event)) : list bool :=
  map (existsb is_alert) tr.

(** The time stamps of the passes of a trace that printed the alert line;
    [fs] are the frames of the run, [tr] its trace. *)
Fixpoint alert_times (fs : list Frame) (tr : list (list Event)) : list Q :=
  match fs, tr with
  | f :: fs', evs :: tr' =>
      (if existsb is_alert evs then [current_time f] else [])
        ++ alert_times fs' tr'
  | _, _ => []
  end.

(** Each time stamp is more than the cooldown after the one before it,
    the first one after [t0]. *)
Fixpoint spaced (t0 : Q) (ts : list Q) : Prop :=
  match ts with
  | [] => True
  | t :: rest => alert_cooldown < t - t0 /\ spaced t rest
  end.

(** The expected state after the angle pairs [ps] have been computed since
    the start, the last alert being at [t]. *)
Definition state_after (ps : list (Q * Q)) (t : Q) : State :=
  let kept := firstn 30 ps in
  let done := (30 <? length ps)%nat in
  {| calibration_shoulder_angles := map fst kept;
     calibration_neck_angles := map snd kept;
     calibration_frames := length kept;
     is_calibrated := done;
     shoulder_threshold := if done then mean (map fst kept) - 10 else 0;
     neck_threshold := if done then mean (map snd kept) - 10 else 0;
     last_alert_time := t |}.

(** The events of the calibration block once the angle pairs [ps] have been
    computed. *)
Definition calibrate_events (ps : list (Q * Q)) : list Event :=
  let kept := firstn 30 ps in
  if (length ps <? 30)%nat then [PutCalibrating (S (length ps))]
  else if (length ps =? 30)%nat
       then [PrintCalibrationComplete (mean (map fst kept) - 10)
                                      (mean (map snd kept) - 10)]
       else [].

(** A frame of an open capture with a pose, no key pressed. *)
Definition pose_frame (sa na t : Q) (present : bool) : Frame :=
  mkFrame true true (Some (sa, na)) t present (-1).

End Session.

(* ================================================================== *)
(** ** Landmarks to angles (main.py 66-80)                            *)
(* ================================================================== *)

Module Pose.

(** [int(x)] on a number: truncation toward zero. *)
Definition int (q : Q) : Z := Z.quot (Qnum q) (Z.pos (Qden q)).

(** A landmark of the pose model: coordinates relative to the frame. *)
Record Landmark : Type := mkLandmark { x : Q; y : Q }.

(** Lines 69-74: [(int(l.x * frame.shape[1]), int(l.y * frame.shape[0]))]. *)
Definition pixel (l : Landmark) (width height : Z) : Z * Z :=
  (int (x l * inject_Z width), int (y l * inject_Z height)).

(** Lines 77-78, with Python's floor division. *)
Definition shoulder_mid (left_shoulder right_shoulder : Z * Z) : Z * Z :=
  ((fst left_shoulder + fst right_shoulder) / 2,
   (snd left_shoulder + snd right_shoulder) / 2)%Z.

(** [np.array] of a pair of integers, read as a point. *)
Definition point (p : Z * Z) : Angle.Point := (IZR (fst p), IZR (snd p)).

(** Line 79. *)
Definition shoulder_angle (left_shoulder right_shoulder : Z * Z) : option R :=
  let mid := shoulder_mid left_shoulder right_shoulder in
  Angle.calculate_angle (point left_shoulder) (point mid) (point (fst mid, 0%Z)).

(** Line 80. *)
Definition neck_angle (left_ear left_shoulder : Z * Z) : option R :=
  Angle.calculate_angle (point left_ear) (point left_shoulder)
                        (point (fst left_shoulder, 0%Z)).

End Pose.

(* ================================================================== *)
(** ** Further observations on traces                                 *)
(* ================================================================== *)

Module Trace.
Import Session.

(** The counts a pass shows as "Calibrating... n/30". *)
Definition shown (evs : list Event) : list nat :=
  flat_map (fun e => match e with PutCalibrating n => [n] | _ => [] end) evs.

(** The counts shown by the passes of a trace, in order. *)
Definition progress (tr : list (list Event)) : list nat := shown (concat tr).

(** The numbers [1; ...; n]. *)
Definition count_to (n : nat) : list nat := seq 1 n.

End Trace.

(* ================================================================== *)
(** ** The angle calculator on machine numbers (main.py 11-22)        *)
(* ================================================================== *)

(** [calculate_angle] as NumPy runs it: pairs of Python integers become
    int64 arrays, whose arithmetic wraps around; pairs of floats become
    float64 arrays, whose arithmetic overflows to infinity and produces
    [nan] from [inf / inf] and [0 * inf].  Rounding to 53 bits, signed zeros
    and underflow are not represented: a finite float operation returns the
    exact real result whenever that is within the float range. *)
Module Machine.
Local Open Scope R_scope.

(** A float64 value. *)
Inductive value : Type :=
| Finite (r : R)
| PosInf
| NegInf
| NaN.

(** The largest finite float64, [(2^53 - 1) * 2^971]. *)
Definition max_float : R := IZR (2 ^ 1024 - 2 ^ 971).

(** The result of a float operation whose exact value is [r]. *)
Definition overflow (r : R) : value :=
  if Rle_dec (Rabs r) max_float then Finite r
  else if Rlt_dec 0 r then PosInf else NegInf.

(** The infinity with the sign of [r], [nan] for [r = 0]. *)
Definition inf_times (r : R) (positive : bool) : value :=
  if Req_dec_T r 0 then NaN
  else if Rlt_dec 0 r then (if positive then PosInf else NegInf)
       else (if positive then NegInf else PosInf).

Definition add (u v : value) : value :=
  match u, v with
  | NaN, _ | _, NaN => NaN
  | Finite x, Finite y => overflow (x + y)
  | PosInf, NegInf | NegInf, PosInf => NaN
  | PosInf, _ | _, PosInf => PosInf
  | NegInf, _ | _, NegInf => NegInf
  end.

Definition neg (u : value) : value :=
  match u with
  | Finite x => Finite (- x)
  | PosInf => NegInf
  | NegInf => PosInf
  | NaN => NaN
  end.

Definition sub (u v : value) : value := add u (neg v).

Definition mul (u v : value) : value :=
  match u, v with
  | NaN, _ | _, NaN => NaN
  | Finite x, Finite y => overflow (x * y)
  | Finite x, PosInf | PosInf, Finite x => inf_times x true
  | Finite x, NegInf | NegInf, Finite x => inf_times x false
  | PosInf, PosInf | NegInf, NegInf => PosInf
  | PosInf, NegInf | NegInf, PosInf => NegInf
  end.

Definition div (u v : value) : value :=
  match u, v with
  | NaN, _ | _, NaN => NaN
  | Finite x, Finite y =>
      if Req_dec_T y 0 then inf_times x true else overflow (x / y)
  | Finite _, _ => Finite 0
  | PosInf, Finite y => if Rle_dec 0 y then PosInf else NegInf
  | NegInf, Finite y => if Rle_dec 0 y then NegInf else PosInf
  | _, _ => NaN
  end.

(** [np.sqrt]. *)
Definition sqrt (u : value) : value :=
  match u with
  | Finite x => if Rle_dec 0 x then Finite (R_sqrt.sqrt x) else NaN
  | PosInf => PosInf
  | _ => NaN
  end.

(** [np.clip(u, -1.0, 1.0)]: [minimum(maximum(u, -1.0), 1.0)], which keeps
    [nan]. *)
Definition clip (u : value) : value :=
  match u with
  | Finite x => Finite (Rmin (Rmax x (-1)) 1)
  | PosInf => Finite 1
  | NegInf => Finite (-1)
  | NaN => NaN
  end.

(** [np.arccos]: [nan] outside [-1, 1]. *)
Definition arccos (u : value) : value :=
  match u with
  | Finite x =>
      if Rle_dec (-1) x then
        if Rle_dec x 1 then Finite (acos x) else NaN
      else NaN
  | _ => NaN
  end.

(** [np.degrees]. *)
Definition degrees (u : value) : value := mul u (Finite (180 / PI)).

(** The int64 value congruent to [z] modulo [2^64]. *)
Definition wrap (z : Z) : Z := ((z + 2 ^ 63) mod 2 ^ 64 - 2 ^ 63)%Z.

Definition int64 (z : Z) : bool := ((- 2 ^ 63 <=? z) && (z <? 2 ^ 63))%Z.

(** An argument of [calculate_angle]: a pair of Python integers or a pair
    of floats. *)
Inductive Point : Type :=
| IntPoint (x y : Z)
| FloatPoint (x y : R).

(** A NumPy array of shape (2,), of dtype int64 or float64. *)
Inductive array : Type :=
| IntArray (x y : Z)
| FloatArray (x y : value).

(** [np.array(p)].  Integers outside the int64 range give an array of
    another dtype (uint64 or object; with the latter the call raises):
    [None], such arguments are outside this embedding. *)
Definition np_array (p : Point) : option array :=
  match p with
  | IntPoint x y =>
      if int64 x && int64 y then Some (IntArray x y) else None
  | FloatPoint x y => Some (FloatArray (overflow x) (overflow y))
  end.

(** Conversion of an array to float64. *)
Definition astype_float (v : array) : value * value :=
  match v with
  | IntArray x y => (overflow (IZR x), overflow (IZR y))
  | FloatArray x y => (x, y)
  end.

(** [v - w]: in int64 when both arrays are, in float64 otherwise. *)
Definition asub (v w : array) : array :=
  match v, w with
  | IntArray x1 y1, IntArray x2 y2 =>
      IntArray (wrap (x1 - x2)) (wrap (y1 - y2))
  | _, _ =>
      let '(x1, y1) := astype_float v in
      let '(x2, y2) := astype_float w in
      FloatArray (sub x1 x2) (sub y1 y2)
  end.

(** [np.dot(v, w)], as the float64 it becomes in the division of line 20:
    computed in int64 when both arrays are, in float64 otherwise. *)
Definition dot (v w : array) : value :=
  match v, w with
  | IntArray x1 y1, IntArray x2 y2 =>
      overflow (IZR (wrap (wrap (x1 * x2) + wrap (y1 * y2))))
  | _, _ =>
      let '(x1, y1) := astype_float v in
      let '(x2, y2) := astype_float w in
      add (mul x1 x2) (mul y1 y2)
  end.

(** [np.linalg.norm(v)]: the array converted to float64, then the square
    root of its dot product with itself. *)
Definition norm (v : array) : value :=
  let '(x, y) := astype_float v in
  sqrt (add (mul x x) (mul y y)).

(** The literal [1e-6]. *)
Definition epsilon : R := 1 / 1000000.

(** The divisor of line 20. *)
Definition denominator (ba bc : array) : value :=
  add (mul (norm ba) (norm bc)) (Finite epsilon).

(** Lines 11-22. *)
Definition calculate_angle (a b c : Point) : option value :=
  match np_array a, np_array b, np_array c with
  | Some a, Some b, Some c =>
      let ba := asub a b in
      let bc := asub c b in
      let cosine_angle := div (dot ba bc) (denominator ba bc) in
      let angle := arccos (clip cosine_angle) in
      Some (degrees angle)
  | _, _, _ => None
  end.

(** The divisor of line 20 for the arguments [a], [b], [c]. *)
Definition divisor (a b c : Point) : option value :=
  match np_array a, np_array b, np_array c with
  | Some a, Some b, Some c => Some (denominator (asub a b) (asub c b))
  | _, _, _ => None
  end.

(** An array of finite entries small enough for line 20: int64 entries, or
    float entries of magnitude at most [2^500]. *)
Definition bounded (v : array) : Prop :=
  match v with
  | IntArray x y => int64 x = true /\ int64 y = true
  | FloatArray (Finite x) (Finite y) =>
      Rabs x <= IZR (2 ^ 500) /\ Rabs y <= IZR (2 ^ 500)
  | FloatArray _ _ => False
  end.

(** The arguments on which the results below are stated: int64 integers,
    or floats of magnitude at most [2^499] (about 1.6e150). *)
Definition in_range (p : Point) : Prop :=
  match p with
  | IntPoint x y => int64 x = true /\ int64 y = true
  | FloatPoint x y => Rabs x <= IZR (2 ^ 499) /\ Rabs y <= IZR (2 ^ 499)
  end.

End Machine.

(* ================================================================== *)
(** ** Facts on the angle calculator                                  *)
(* ================================================================== *)

Section AngleFacts.
Import Angle.
Local Open Scope R_scope.

Lemma norm_nonneg (u : Point) : 0 <= norm u.
Proof. unfold norm. apply sqrt_pos. Qed.

Lemma vsub_diag (b : Point) : vsub b b = (0, 0).
Proof. unfold vsub. f_equal; ring. Qed.

Lemma dot_comm (u v : Point) : dot u v = dot v u.
Proof. unfold dot. ring. Qed.

Lemma dot_zero_l (v : Point) : dot (0, 0) v = 0.
Proof. unfold dot; simpl. ring. Qed.

Lemma epsilon_pos : 0 < epsilon.
Proof. unfold epsilon. lra. Qed.

Lemma denominator_pos (a b c : Point) : epsilon <= denominator a b c.
Proof.
  unfold denominator; cbv zeta.
  pose proof (norm_nonneg (vsub a b)) as Ha.
  pose proof (norm_nonneg (vsub c b)) as Hc.
  pose proof (Rmult_le_pos _ _ Ha Hc). lra.
Qed.

Lemma denominator_sym (a b c : Point) : denominator a b c = denominator c b a.
Proof. unfold denominator; cbv zeta. ring. Qed.

Lemma clip_bounds (x lo hi : R) : lo <= hi -> lo <= clip x lo hi <= hi.
Proof.
  intros Hlh. unfold clip. split.
  - apply Rmin_glb; [apply Rmax_r | exact Hlh].
  - apply Rmin_r.
Qed.

Lemma clip_id (x lo hi : R) : lo <= x <= hi -> clip x lo hi = x.
Proof.
  intros [Hl Hh]. unfold clip.
  rewrite Rmax_left by exact Hl. apply Rmin_left; exact Hh.
Qed.

Lemma degrees_half_pi : degrees (PI / 2) = 90.
Proof. unfold degrees. pose proof PI_RGT_0. field. lra. Qed.

Lemma degrees_bounds (x : R) : 0 <= x <= PI -> 0 <= degrees x <= 180.
Proof.
  intros [H0 H1]. unfold degrees. pose proof PI_RGT_0 as Hpi.
  assert (Hk : 0 < 180 / PI) by (apply Rdiv_lt_0_compat; lra).
  split.
  - apply Rmult_le_pos; lra.
  - replace 180 with (PI * (180 / PI)) at 2 by (field; lra).
    apply Rmult_le_compat_r; lra.
Qed.

Lemma divide_defined (x y : R) : y <> 0 -> divide x y = Some (x / y).
Proof.
  intros Hy. unfold divide. destruct (Req_dec_T y 0); [contradiction|reflexivity].
Qed.

Lemma arccos_defined (x : R) : -1 <= x <= 1 -> arccos x = Some (acos x).
Proof.
  intros [Hl Hh]. unfold arccos.
  destruct (Rle_dec (-1) x); [|contradiction].
  destruct (Rle_dec x 1); [reflexivity|contradiction].
Qed.

Lemma cosine_angle_defined (a b c : Point) :
  cosine_angle a b c
  = Some (dot (vsub a b) (vsub c b) / denominator a b c).
Proof.
  unfold cosine_angle; cbv zeta. apply divide_defined.
  pose proof (denominator_pos a b c). pose proof epsilon_pos. lra.
Qed.

(** The closed form of the result: no step leaves the finite numbers. *)
Lemma calculate_angle_defined (a b c : Point) :
  calculate_angle a b c
  = Some (degrees (acos (clip (dot (vsub a b) (vsub c b) / denominator a b c)
                              (-1) 1))).
Proof.
  unfold calculate_angle.
  rewrite cosine_angle_defined, arccos_defined; [reflexivity|].
  apply clip_bounds. lra.
Qed.

Lemma cosine_angle_sym (a b c : Point) : cosine_angle a b c = cosine_angle c b a.
Proof.
  unfold cosine_angle; cbv zeta.
  rewrite (dot_comm (vsub a b)), (denominator_sym a b c). reflexivity.
Qed.

End AngleFacts.

(** C5. [calculate_angle] is unchanged when its first and third arguments
    are swapped. *)
Theorem calculate_angle_symmetric :
  forall a b c : Angle.Point,
    Angle.calculate_angle a b c = Angle.calculate_angle c b a.
Proof.
  intros a b c. unfold Angle.calculate_angle.
  rewrite (cosine_angle_sym a b c). reflexivity.
Qed.

(* ================================================================== *)
(** ** Facts on the session                                           *)
(* ================================================================== *)

Section SessionFacts.
Import Session.
Local Open Scope Q_scope.

Lemma Qltb_iff (x y : Q) : Qltb x y = true <-> x < y.
Proof.
  unfold Qltb. rewrite negb_true_iff. split.
  - intros H. apply Qnot_le_lt. intros Hle.
    apply Qle_bool_iff in Hle. congruence.
  - intros H. destruct (Qle_bool y x) eqn:E; [|reflexivity].
    apply Qle_bool_iff in E. exfalso. exact (Qlt_not_le _ _ H E).
Qed.

Lemma Qltb_false_iff (x y : Q) : Qltb x y = false <-> ~ x < y.
Proof.
  rewrite <- Qltb_iff. destruct (Qltb x y); split; intros; congruence.
Qed.

Lemma poor_iff (s : State) (sa na : Q) :
  poor s sa na = true <-> sa < shoulder_threshold s \/ na < neck_threshold s.
Proof. unfold poor. rewrite orb_true_iff, !Qltb_iff. reflexivity. Qed.

(** *** The calibration block *)

Lemma firstn_snoc_short {A} (n : nat) (l : list A) (x : A) :
  (length l < n)%nat -> firstn n (l ++ [x]) = firstn n l ++ [x].
Proof.
  intros H. rewrite firstn_app.
  replace (n - length l)%nat with (S (n - length l - 1)) by lia.
  cbn [firstn]. rewrite firstn_nil. reflexivity.
Qed.

Lemma firstn_snoc_full {A} (n : nat) (l : list A) (x : A) :
  (n <= length l)%nat -> firstn n (l ++ [x]) = firstn n l.
Proof.
  intros H. rewrite firstn_app.
  replace (n - length l)%nat with 0%nat by lia.
  simpl. apply app_nil_r.
Qed.

Lemma calibrate_state_after (ps : list (Q * Q)) (t sa na : Q) :
  calibrate (state_after ps t) sa na
  = (state_after (ps ++ [(sa, na)]) t, calibrate_events ps).
Proof.
  unfold calibrate, calibrate_events, state_after.
  cbn [calibration_shoulder_angles calibration_neck_angles calibration_frames
       is_calibrated shoulder_threshold neck_threshold last_alert_time].
  rewrite length_app, length_firstn. cbn [length].
  destruct (Nat.ltb_spec (length ps) 30) as [Hlt | Hge].
  - (* still collecting *)
    replace (30 <? length ps)%nat with false by (symmetry; apply Nat.ltb_ge; lia).
    replace (30 <? length ps + 1)%nat with false by (symmetry; apply Nat.ltb_ge; lia).
    replace (Nat.min 30 (length ps) <? 30)%nat with true
      by (symmetry; apply Nat.ltb_lt; lia).
    cbn [negb andb].
    rewrite firstn_snoc_short by exact Hlt.
    rewrite !map_app, length_app, length_firstn. cbn [map fst snd length].
    rewrite (firstn_all2 (n := 30) ps) by lia.
    replace (Nat.min 30 (length ps)) with (length ps) by lia.
    rewrite Nat.add_1_r. reflexivity.
  - replace (Nat.min 30 (length ps) <? 30)%nat with false
      by (symmetry; apply Nat.ltb_ge; lia).
    rewrite andb_false_r.
    replace (30 <? length ps + 1)%nat with true by (symmetry; apply Nat.ltb_lt; lia).
    rewrite firstn_snoc_full by exact Hge.
    destruct (Nat.eqb_spec (length ps) 30) as [Heq | Hne].
    + replace (30 <? length ps)%nat with false by (symmetry; apply Nat.ltb_ge; lia).
      cbn [negb]. rewrite ?length_firstn. reflexivity.
    + replace (30 <? length ps)%nat with true by (symmetry; apply Nat.ltb_lt; lia).
      cbn [negb]. rewrite ?length_firstn. reflexivity.
Qed.

(** *** The feedback block *)

Lemma alert_eq (s : State) (f : Frame) :
  alert s f
  = Some (if Qltb alert_cooldown (current_time f - last_alert_time s)
          then (set_last_alert_time s (current_time f),
                PrintPoorPosture
                  :: (if sound_file_exists f then [PlaySound sound_file] else []))
          else (s, [])).
Proof.
  unfold alert, playsound.
  destruct (Qltb _ _); [|reflexivity].
  destruct (sound_file_exists f); reflexivity.
Qed.

Lemma set_last_alert_time_state_after (ps : list (Q * Q)) (t t' : Q) :
  set_last_alert_time (state_after ps t) t' = state_after ps t'.
Proof. reflexivity. Qed.

Lemma feedback_state_after (ps : list (Q * Q)) (t : Q) (f : Frame) (sa na : Q) :
  exists t' evs,
    feedback (state_after ps t) f sa na = Some (state_after ps t', evs)
    /\ filter is_finalize evs = [].
Proof.
  unfold feedback.
  destruct (is_calibrated (state_after ps t)).
  - destruct (poor _ _ _).
    + rewrite alert_eq. destruct (Qltb _ _).
      * exists (current_time f). eexists. split; [reflexivity|].
        destruct (sound_file_exists f); reflexivity.
      * exists t. eexists. split; reflexivity.
    + exists t. eexists. split; reflexivity.
  - exists t, []. split; reflexivity.
Qed.

Lemma calibrate_events_finalize (ps : list (Q * Q)) :
  length (filter is_finalize (calibrate_events ps))
  = if (length ps =? 30)%nat then 1%nat else 0%nat.
Proof.
  unfold calibrate_events; cbv zeta.
  destruct (Nat.ltb_spec (length ps) 30) as [Hlt | Hge].
  - replace (length ps =? 30)%nat with false
      by (symmetry; apply Nat.eqb_neq; lia).
    reflexivity.
  - destruct (length ps =? 30)%nat; reflexivity.
Qed.

(** *** One pass of the loop *)

Lemma sample_length (f : Frame) : (length (sample f) <= 1)%nat.
Proof.
  unfold sample. destruct (ret f); [|simpl; lia].
  destruct (pose_landmarks f); simpl; lia.
Qed.

Lemma iteration_state_after (ps : list (Q * Q)) (t : Q) (f : Frame) :
  exists t' evs,
    iteration (state_after ps t) f
    = Some (state_after (ps ++ sample f) t', evs, breaks f)
    /\ length (filter is_finalize evs)
       = if (length ps =? 30)%nat then length (sample f) else 0%nat.
Proof.
  unfold iteration, sample, breaks.
  destruct (ret f); cbn [negb andb].
  2:{ exists t, []. rewrite app_nil_r. split; [reflexivity|].
      destruct (length ps =? 30)%nat; reflexivity. }
  destruct (pose_landmarks f) as [[sa na]|].
  2:{ exists t, [ImShow]. rewrite app_nil_r. split; [reflexivity|].
      destruct (length ps =? 30)%nat; reflexivity. }
  rewrite calibrate_state_after.
  destruct (feedback_state_after (ps ++ [(sa, na)]) t f sa na)
    as (t' & evs2 & Hfb & Hfin).
  rewrite Hfb. exists t'. eexists. split; [reflexivity|].
  rewrite !filter_app, Hfin, !length_app, calibrate_events_finalize.
  cbn [filter is_finalize length app].
  destruct (length ps =? 30)%nat; reflexivity.
Qed.

Lemma iteration_total (s : State) (f : Frame) :
  exists s' evs, iteration s f = Some (s', evs, breaks f).
Proof.
  unfold iteration, breaks.
  destruct (ret f); cbn [negb andb]; [|eauto].
  destruct (pose_landmarks f) as [[sa na]|]; [|eauto].
  destruct (calibrate s sa na) as [s1 evs1].
  unfold feedback. destruct (is_calibrated s1); [|eauto].
  destruct (poor s1 sa na); [|eauto].
  rewrite alert_eq. destruct (Qltb _ _); eauto.
Qed.

(** *** The loop *)

Lemma run_total (fs : list Frame) :
  forall s, exists s' tr, run s fs = Some (s', tr).
Proof.
  induction fs as [|f rest IH]; intros s; cbn [run]; [eauto|].
  destruct (isOpened f); [|eauto].
  destruct (iteration_total s f) as (s1 & evs & ->).
  destruct (breaks f); [eauto|].
  destruct (IH s1) as (s2 & tr & ->). eauto.
Qed.

Lemma finalizations_cons (evs : list Event) (tr : list (list Event)) :
  finalizations (evs :: tr)
  = (length (filter is_finalize evs) + finalizations tr)%nat.
Proof.
  unfold finalizations. cbn [concat].
  rewrite filter_app, length_app. reflexivity.
Qed.

(** Whether a run that starts after [n] angle pairs and ends after [m] of
    them goes through the pass that computes the thresholds. *)
Lemma run_state_after (fs : list Frame) :
  forall (ps : list (Q * Q)) (t : Q),
  exists t' tr,
    run (state_after ps t) fs
    = Some (state_after (ps ++ samples (executed fs)) t', tr)
    /\ finalizations tr
       = if ((length ps <=? 30) && (30 <? length (ps ++ samples (executed fs))))%nat
         then 1%nat else 0%nat.
Proof.
  induction fs as [|f rest IH]; intros ps t; cbn [run executed].
  - exists t, []. cbn [samples flat_map]. rewrite app_nil_r.
    split; [reflexivity|].
    destruct (Nat.leb_spec (length ps) 30), (Nat.ltb_spec 30 (length ps));
      cbn [andb]; try reflexivity; lia.
  - destruct (isOpened f).
    2:{ exists t, []. cbn [samples flat_map]. rewrite app_nil_r.
        split; [reflexivity|].
        destruct (Nat.leb_spec (length ps) 30), (Nat.ltb_spec 30 (length ps));
          cbn [andb]; try reflexivity; lia. }
    destruct (iteration_state_after ps t f) as (t1 & evs & -> & Hfin).
    pose proof (sample_length f) as Hlen.
    destruct (breaks f).
    + exists t1, [evs]. cbn [samples flat_map]. rewrite app_nil_r.
      split; [reflexivity|].
      rewrite finalizations_cons, Hfin. unfold finalizations. cbn [concat filter length].
      rewrite length_app.
      destruct (Nat.eqb_spec (length ps) 30),
               (Nat.leb_spec (length ps) 30),
               (Nat.ltb_spec 30 (length ps + length (sample f)));
        cbn [andb]; lia.
    + destruct (IH (ps ++ sample f) t1) as (t2 & tr & -> & Htr).
      exists t2, (evs :: tr). cbn [samples flat_map].
      fold (samples (executed rest)). rewrite app_assoc.
      split; [reflexivity|].
      rewrite finalizations_cons, Hfin, Htr.
      rewrite !length_app in *.
      destruct (Nat.eqb_spec (length ps) 30),
               (Nat.leb_spec (length ps) 30),
               (Nat.leb_spec (length ps + length (sample f)) 30),
               (Nat.ltb_spec 30 (length ps + length (sample f)
                                 + length (samples (executed rest))));
        cbn [andb]; lia.
Qed.

(** *** Shapes of the two blocks *)

Lemma calibrate_cases (s : State) (sa na : Q) :
  let '(s1, evs1) := calibrate s sa na in
  last_alert_time s1 = last_alert_time s
  /\ ((is_calibrated s = true /\ s1 = s /\ evs1 = [])
      \/ (is_calibrated s = false /\ is_calibrated s1 = false
          /\ exists n, evs1 = [PutCalibrating n])
      \/ (is_calibrated s = false /\ is_calibrated s1 = true
          /\ exists st nt, evs1 = [PrintCalibrationComplete st nt])).
Proof.
  unfold calibrate.
  destruct (is_calibrated s) eqn:Hc; cbn [negb andb].
  - split; [reflexivity|]. left. auto.
  - destruct (calibration_frames s <? 30)%nat;
      (split; [reflexivity|]); right; [left | right];
      cbn [is_calibrated]; eauto.
Qed.

Lemma feedback_eq (s : State) (f : Frame) (sa na : Q) :
  feedback s f sa na
  = Some
      (if is_calibrated s then
         if poor s sa na then
           if Qltb alert_cooldown (current_time f - last_alert_time s) then
             (set_last_alert_time s (current_time f),
              PrintPoorPosture
                :: (if sound_file_exists f then [PlaySound sound_file] else [])
                ++ [PutStatus "Poor Posture";
                    PutAngles sa (shoulder_threshold s) na (neck_threshold s)])
           else
             (s, [PutStatus "Poor Posture";
                  PutAngles sa (shoulder_threshold s) na (neck_threshold s)])
         else
           (s, [PutStatus "Good Posture";
                PutAngles sa (shoulder_threshold s) na (neck_threshold s)])
       else (s, [])).
Proof.
  unfold feedback.
  destruct (is_calibrated s); [|reflexivity].
  destruct (poor s sa na); [|reflexivity].
  rewrite alert_eq. destruct (Qltb _ _); reflexivity.
Qed.

(** A pass with a frame and a pose: the calibration block, the overlay, the
    feedback block, the display. *)
Lemma iteration_pose (s : State) (f : Frame) (sa na : Q) :
  ret f = true -> pose_landmarks f = Some (sa, na) ->
  exists s2 evs2,
    feedback (fst (calibrate s sa na)) f sa na = Some (s2, evs2)
    /\ iteration s f
       = Some (s2,
               snd (calibrate s sa na) ++ [DrawOverlay sa na] ++ evs2 ++ [ImShow],
               quit_pressed f).
Proof.
  intros Hret Hpose. unfold iteration. rewrite Hret, Hpose. cbn [negb].
  destruct (calibrate s sa na) as [s1 evs1]. cbn [fst snd].
  rewrite feedback_eq.
  match goal with |- context [Some ?r] => destruct r as [s2 evs2] end.
  exists s2, evs2. split; reflexivity.
Qed.

Lemma status_of_imshow (evs : list Event) :
  status_of (evs ++ [ImShow]) = status_of evs.
Proof.
  induction evs as [|e evs IH]; [reflexivity|].
  destruct e; cbn [app status_of]; auto.
Qed.

(** *** The alert limiter *)

Lemma iteration_alert (s : State) (f : Frame) s' evs b :
  iteration s f = Some (s', evs, b) ->
  if existsb is_alert evs
  then alert_cooldown < current_time f - last_alert_time s
       /\ last_alert_time s' = current_time f
  else last_alert_time s' = last_alert_time s.
Proof.
  unfold iteration.
  destruct (ret f); cbn [negb].
  2:{ intros [= <- <- _]. reflexivity. }
  destruct (pose_landmarks f) as [[sa na]|].
  2:{ intros [= <- <- _]. reflexivity. }
  pose proof (calibrate_cases s sa na) as Hcases.
  destruct (calibrate s sa na) as [s1 evs1].
  destruct Hcases as (Hlast & Hshape).
  rewrite feedback_eq, <- Hlast.
  assert (Hevs1 : forall l, existsb is_alert (evs1 ++ l) = existsb is_alert l).
  { intros l.
    destruct Hshape as [(_ & _ & ->) | [(_ & _ & n & ->) | (_ & _ & x & y & ->)]];
      reflexivity. }
  destruct (is_calibrated s1).
  2:{ intros [= <- <- _]. rewrite Hevs1. reflexivity. }
  destruct (poor s1 sa na).
  2:{ intros [= <- <- _]. rewrite Hevs1. reflexivity. }
  destruct (Qltb alert_cooldown (current_time f - last_alert_time s1)) eqn:Hdue.
  - intros [= <- <- _]. rewrite Hevs1. cbn [app existsb is_alert orb].
    split; [apply Qltb_iff; exact Hdue | reflexivity].
  - intros [= <- <- _]. rewrite Hevs1. reflexivity.
Qed.

Lemma run_spaced (fs : list Frame) :
  forall s, exists s' tr,
    run s fs = Some (s', tr) /\ spaced (last_alert_time s) (alert_times fs tr).
Proof.
  induction fs as [|f rest IH]; intros s; cbn [run].
  - exists s, []. split; [reflexivity | exact I].
  - destruct (isOpened f).
    2:{ exists s, []. split; [reflexivity | exact I]. }
    destruct (iteration_total s f) as (s1 & evs & Hit).
    pose proof (iteration_alert s f s1 evs _ Hit) as Hal.
    rewrite Hit. destruct (breaks f).
    + exists s1, [evs]. split; [reflexivity|].
      cbn [alert_times]. destruct (existsb is_alert evs).
      * destruct rest; cbn [alert_times app spaced]; tauto.
      * destruct rest; exact I.
    + destruct (IH s1) as (s2 & tr & -> & Hsp).
      exists s2, (evs :: tr). split; [reflexivity|].
      cbn [alert_times]. destruct (existsb is_alert evs).
      * destruct Hal as [Hdue Hlast]. rewrite Hlast in Hsp.
        cbn [app spaced]. split; assumption.
      * rewrite Hal in Hsp. exact Hsp.
Qed.

Lemma spaced_after (ts : list Q) :
  forall t0 t, spaced t0 ts -> In t ts -> alert_cooldown < t - t0.
Proof.
  unfold alert_cooldown.
  induction ts as [|u rest IH]; intros t0 t Hsp Hin; [destruct Hin|].
  destruct Hsp as [Hu Hrest]. destruct Hin as [<- | Hin]; [exact Hu|].
  specialize (IH u t Hrest Hin). unfold alert_cooldown in *. Lqa.lra.
Qed.

Lemma spaced_pairwise (ts : list Q) :
  forall t0 pre t1 mid t2 post,
    spaced t0 ts -> ts = pre ++ t1 :: mid ++ t2 :: post ->
    alert_cooldown < t2 - t1.
Proof.
  intros t0 pre. revert t0 ts.
  induction pre as [|p pre IH]; intros t0 ts t1 mid t2 post Hsp ->.
  - destruct Hsp as [_ Hrest].
    apply (spaced_after _ t1 t2 Hrest).
    apply in_or_app. right. left. reflexivity.
  - destruct Hsp as [_ Hrest]. exact (IH p _ t1 mid t2 post Hrest eq_refl).
Qed.

Lemma iteration_mute (s : State) (f : Frame) s' evs b :
  iteration s f = Some (s', evs, b) ->
  iteration s (mute f)
  = Some (s', filter (fun e => negb (is_playsound e)) evs, b).
Proof.
  unfold iteration, quit_pressed. cbn [mute ret pose_landmarks waitKey].
  destruct (ret f); cbn [negb].
  2:{ intros [= <- <- <-]. reflexivity. }
  destruct (pose_landmarks f) as [[sa na]|].
  2:{ intros [= <- <- <-]. reflexivity. }
  pose proof (calibrate_cases s sa na) as Hcases.
  destruct (calibrate s sa na) as [s1 evs1].
  destruct Hcases as (_ & Hshape).
  rewrite !feedback_eq. cbn [mute current_time sound_file_exists].
  assert (Hevs1 : forall l, filter (fun e => negb (is_playsound e)) (evs1 ++ l)
                            = evs1 ++ filter (fun e => negb (is_playsound e)) l).
  { intros l.
    destruct Hshape as [(_ & _ & ->) | [(_ & _ & n & ->) | (_ & _ & x & y & ->)]];
      reflexivity. }
  destruct (is_calibrated s1).
  2:{ intros [= <- <- <-]. rewrite Hevs1. reflexivity. }
  destruct (poor s1 sa na).
  2:{ intros [= <- <- <-]. rewrite Hevs1. reflexivity. }
  destruct (Qltb alert_cooldown (current_time f - last_alert_time s1)).
  - intros [= <- <- <-]. rewrite Hevs1.
    destruct (sound_file_exists f); reflexivity.
  - intros [= <- <- <-]. rewrite Hevs1. reflexivity.
Qed.

Lemma breaks_mute (f : Frame) : breaks (mute f) = breaks f.
Proof. reflexivity. Qed.

Lemma existsb_alert_filter (evs : list Event) :
  existsb is_alert (filter (fun e => negb (is_playsound e)) evs)
  = existsb is_alert evs.
Proof.
  induction evs as [|e evs IH]; [reflexivity|].
  destruct e; cbn [filter is_playsound negb existsb is_alert orb]; auto.
Qed.

(** *** Calibrated states *)

Lemma iteration_calibrated (s : State) (f : Frame) s' evs b :
  is_calibrated s = true ->
  iteration s f = Some (s', evs, b) ->
  s' = s \/ s' = set_last_alert_time s (current_time f).
Proof.
  intros Hcal. unfold iteration.
  destruct (ret f); cbn [negb].
  2:{ intros [= <- _ _]. left. reflexivity. }
  destruct (pose_landmarks f) as [[sa na]|].
  2:{ intros [= <- _ _]. left. reflexivity. }
  pose proof (calibrate_cases s sa na) as Hcases.
  destruct (calibrate s sa na) as [s1 evs1].
  destruct Hcases as (_ & [(_ & -> & _) | [(Hf & _) | (Hf & _)]]);
    try congruence.
  rewrite feedback_eq, Hcal.
  destruct (poor s sa na); [destruct (Qltb _ _)|];
    intros [= <- _ _]; auto.
Qed.

Lemma run_calibrated (fs : list Frame) :
  forall s s' tr,
    is_calibrated s = true -> run s fs = Some (s', tr) ->
    exists t, s' = set_last_alert_time s t.
Proof.
  induction fs as [|f rest IH]; intros s s' tr Hcal; cbn [run].
  - intros [= <- _]. exists (last_alert_time s). destruct s; reflexivity.
  - destruct (isOpened f).
    2:{ intros [= <- _]. exists (last_alert_time s). destruct s; reflexivity. }
    destruct (iteration s f) as [[[s1 evs] brk]|] eqn:Hit; [|discriminate].
    assert (H1 : exists t, s1 = set_last_alert_time s t).
    { destruct (iteration_calibrated s f s1 evs brk Hcal Hit) as [-> | ->].
      - exists (last_alert_time s). destruct s; reflexivity.
      - eauto. }
    destruct H1 as (t1 & ->).
    destruct brk.
    + intros [= <- _]. eauto.
    + destruct (run _ rest) as [[s2 tr2]|] eqn:Hrun; [|discriminate].
      intros [= <- _].
      destruct (IH (set_last_alert_time s t1) _ _ Hcal Hrun) as (t2 & ->).
      exists t2. reflexivity.
Qed.

Lemma init_state_after : init = state_after [] 0.
Proof. reflexivity. Qed.

End SessionFacts.

(* ================================================================== *)
(** ** Calibration tracker                                            *)
(* ================================================================== *)

Section Calibration.
Import Session.
Local Open Scope Q_scope.

(** C1. In every run, with [ps] the angle pairs of the passes that had a
    frame and a pose (the other passes add nothing): the two sample lists hold
    the first 30 of them, never more; the calibrated flag is set exactly when
    a 31st such pass has run, the thresholds then being the means of the 30
    samples minus 10; the calibration line is printed once in such a run and
    never otherwise.  The pass that follows a run computes the thresholds
    exactly when the run collected 30 pairs and the pass has a frame and a
    pose.  Thirty samples of 80 give the threshold 70. *)
Theorem calibration_tracker :
  (forall fs : list Frame,
     let ps := samples (executed fs) in
     let kept := firstn 30 ps in
     let done := (30 <? length ps)%nat in
     exists s tr,
       run init fs = Some (s, tr)
       /\ calibration_shoulder_angles s = map fst kept
       /\ calibration_neck_angles s = map snd kept
       /\ calibration_frames s = Nat.min 30 (length ps)
       /\ is_calibrated s = done
       /\ shoulder_threshold s = (if done then mean (map fst kept) - 10 else 0)
       /\ neck_threshold s = (if done then mean (map snd kept) - 10 else 0)
       /\ finalizations tr = (if done then 1 else 0)%nat)
  /\ (forall (fs : list Frame) (f : Frame),
        exists s tr s' evs b,
          run init fs = Some (s, tr)
          /\ iteration s f = Some (s', evs, b)
          /\ length (filter is_finalize evs)
             = if (length (samples (executed fs)) =? 30)%nat
               then length (sample f) else 0%nat)
  /\ match run init (repeat (pose_frame 80 80 0 false) 31) with
     | Some (s, _) => shoulder_threshold s == 70 /\ neck_threshold s == 70
     | None => False
     end.
Proof.
  split; [|split].
  - intros fs ps kept done.
    destruct (run_state_after fs [] 0) as (t & tr & Hrun & Hfin).
    rewrite <- init_state_after in Hrun. cbn [app length] in Hrun, Hfin.
    exists (state_after ps t), tr.
    split; [exact Hrun|].
    unfold state_after. cbn [calibration_shoulder_angles calibration_neck_angles
      calibration_frames is_calibrated shoulder_threshold neck_threshold].
    rewrite length_firstn.
    repeat split; try reflexivity. exact Hfin.
  - intros fs f.
    destruct (run_state_after fs [] 0) as (t & tr & Hrun & _).
    rewrite <- init_state_after in Hrun. cbn [app] in Hrun.
    destruct (iteration_state_after (samples (executed fs)) t f)
      as (t' & evs & Hit & Hfin).
    do 5 eexists. split; [exact Hrun|]. split; [exact Hit | exact Hfin].
  - vm_compute. split; reflexivity.
Qed.

End Calibration.

(* ================================================================== *)
(** ** Posture classifier                                             *)
(* ================================================================== *)

Section Classifier.
Import Session.
Local Open Scope Q_scope.
Local Open Scope string_scope.

(** C2. On every pass that reaches line 102 with the calibrated flag set
    ([s1] is the state the calibration block leaves), the status put on the
    frame is "Poor Posture" if and only if the shoulder angle is below the
    shoulder threshold or the neck angle is below the neck threshold, and is
    "Good Posture" if and only if neither is. *)
Theorem posture_classifier :
  forall (s : State) (f : Frame) (sa na : Q),
    ret f = true ->
    pose_landmarks f = Some (sa, na) ->
    is_calibrated (fst (calibrate s sa na)) = true ->
    exists s' evs b,
      iteration s f = Some (s', evs, b)
      /\ (status_of evs = Some "Poor Posture"
          <-> sa < shoulder_threshold (fst (calibrate s sa na))
              \/ na < neck_threshold (fst (calibrate s sa na)))
      /\ (status_of evs = Some "Good Posture"
          <-> ~ (sa < shoulder_threshold (fst (calibrate s sa na))
                 \/ na < neck_threshold (fst (calibrate s sa na)))).
Proof.
  intros s f sa na Hret Hpose Hcal.
  destruct (iteration_pose s f sa na Hret Hpose) as (s2 & evs2 & Hfb & Hit).
  rewrite Hit. do 3 eexists. split; [reflexivity|].
  rewrite feedback_eq, Hcal in Hfb.
  pose proof (calibrate_cases s sa na) as Hcases.
  destruct (calibrate s sa na) as [s1 evs1]. cbn [fst snd] in *.
  assert (Hst : status_of (evs1 ++ [DrawOverlay sa na] ++ evs2 ++ [ImShow])
                = status_of evs2).
  { destruct Hcases as (_ & [(_ & _ & ->) | [(_ & _ & n & ->) | (_ & _ & a & b & ->)]]);
      cbn [app status_of]; apply status_of_imshow. }
  rewrite Hst. rewrite <- poor_iff.
  destruct (poor s1 sa na).
  - assert (Hp : status_of evs2 = Some "Poor Posture").
    { destruct (Qltb _ _); injection Hfb as _ <-; [|reflexivity].
      destruct (sound_file_exists f); reflexivity. }
    rewrite Hp. split; split; intros; try reflexivity; try discriminate.
    exfalso; auto.
  - injection Hfb as _ <-. cbn [status_of].
    split; split; intros; try reflexivity; try discriminate.
Qed.

Lemma posture_classifier_witness :
  exists s' evs b,
    iteration (state_after (repeat (80, 80) 31) 0) (pose_frame 65 75 0 false)
    = Some (s', evs, b)
    /\ (status_of evs = Some "Poor Posture"
        <-> 65 < shoulder_threshold
                   (fst (calibrate (state_after (repeat (80, 80) 31) 0) 65 75))
            \/ 75 < neck_threshold
                      (fst (calibrate (state_after (repeat (80, 80) 31) 0) 65 75)))
    /\ (status_of evs = Some "Good Posture"
        <-> ~ (65 < shoulder_threshold
                      (fst (calibrate (state_after (repeat (80, 80) 31) 0) 65 75))
               \/ 75 < neck_threshold
                         (fst (calibrate (state_after (repeat (80, 80) 31) 0) 65 75)))).
Proof.
  apply (posture_classifier (state_after (repeat (80, 80) 31) 0)
                            (pose_frame 65 75 0 false) 65 75);
    reflexivity.
Defined.

(** With both thresholds at 70: 65 / 75 is poor, 75 / 75 is good. *)
Example classifier_at_70 :
  shoulder_threshold (state_after (repeat (80, 80) 31) 0) == 70
  /\ neck_threshold (state_after (repeat (80, 80) 31) 0) == 70
  /\ option_map (fun r => status_of (snd (fst r)))
       (iteration (state_after (repeat (80, 80) 31) 0) (pose_frame 65 75 0 false))
     = Some (Some "Poor Posture")
  /\ option_map (fun r => status_of (snd (fst r)))
       (iteration (state_after (repeat (80, 80) 31) 0) (pose_frame 75 75 0 false))
     = Some (Some "Good Posture").
Proof. vm_compute. repeat split. Qed.

End Classifier.

(* ================================================================== *)
(** ** Alert limiter                                                  *)
(* ================================================================== *)

Section AlertLimiter.
Import Session.
Local Open Scope Q_scope.

(** C3, as the claim gives its example: thirty calibration frames, then
    poor-posture frames at t = 0, 5 and 11.  [last_alert_time] starts at 0,
    so the frame at t = 0 prints no alert ([0 - 0 > 10] is false); the
    first alert is the one at t = 11. *)
Lemma alert_at_time_zero_not_fired :
  option_map (fun r => skipn 30 (alerts (snd r)))
    (run init (repeat (pose_frame 80 80 0 true) 30
               ++ [pose_frame 60 80 0 true;
                   pose_frame 60 80 5 true;
                   pose_frame 60 80 11 true]))
  = Some [false; false; true].
Proof. vm_compute. reflexivity. Qed.

(** C3, amended.  On a pass classified as poor posture the alert line is
    printed exactly when [current_time - last_alert_time > alert_cooldown];
    printing it sets [last_alert_time] to [current_time], and otherwise
    [last_alert_time] is unchanged.  In every run any two alerts are more
    than the cooldown apart.  With [last_alert_time] starting at 0, poor
    frames at t = 100, 105 and 111 alert, do not alert, and alert again. *)
Theorem alert_limiter :
  (forall (s : State) (f : Frame) (sa na : Q),
     ret f = true ->
     pose_landmarks f = Some (sa, na) ->
     is_calibrated (fst (calibrate s sa na)) = true ->
     poor (fst (calibrate s sa na)) sa na = true ->
     exists s' evs b,
       iteration s f = Some (s', evs, b)
       /\ (existsb is_alert evs = true
           <-> alert_cooldown < current_time f - last_alert_time s)
       /\ last_alert_time s'
          = if existsb is_alert evs then current_time f else last_alert_time s)
  /\ (forall fs : list Frame,
        exists s tr,
          run init fs = Some (s, tr)
          /\ forall pre t1 mid t2 post,
               alert_times fs tr = pre ++ t1 :: mid ++ t2 :: post ->
               alert_cooldown < t2 - t1)
  /\ option_map (fun r => skipn 30 (alerts (snd r)))
       (run init (repeat (pose_frame 80 80 0 true) 30
                  ++ [pose_frame 60 80 100 true;
                      pose_frame 60 80 105 true;
                      pose_frame 60 80 111 true]))
     = Some [true; false; true].
Proof.
  split; [|split].
  - intros s f sa na Hret Hpose Hcal Hpoor.
    destruct (iteration_pose s f sa na Hret Hpose) as (s2 & evs2 & Hfb & Hit).
    rewrite Hit. do 3 eexists. split; [reflexivity|].
    pose proof (iteration_alert s f _ _ _ Hit) as Hal.
    rewrite feedback_eq, Hcal, Hpoor in Hfb.
    pose proof (calibrate_cases s sa na) as Hcases.
    destruct (calibrate s sa na) as [s1 evs1]. cbn [fst snd] in *.
    destruct Hcases as (Hlast & Hshape). rewrite Hlast in Hfb.
    destruct (existsb is_alert _) eqn:Hfired.
    + destruct Hal as [Hdue Hset]. split; [tauto | exact Hset].
    + split; [|exact Hal]. split; [discriminate|]. intros Hdue.
      apply Qltb_iff in Hdue. rewrite Hdue in Hfb. injection Hfb as _ <-.
      exfalso. revert Hfired.
      destruct Hshape as [(_ & _ & ->) | [(_ & _ & n & ->) | (_ & _ & x & y & ->)]];
        discriminate.
  - intros fs. destruct (run_spaced fs init) as (s & tr & Hrun & Hsp).
    exists s, tr. split; [exact Hrun|].
    intros pre t1 mid t2 post Heq.
    exact (spaced_pairwise _ _ pre t1 mid t2 post Hsp Heq).
  - vm_compute. reflexivity.
Qed.

Lemma alert_limiter_witness :
  exists s' evs b,
    iteration (state_after (repeat (80, 80) 31) 0) (pose_frame 60 80 100 true)
    = Some (s', evs, b)
    /\ (existsb is_alert evs = true
        <-> alert_cooldown
            < current_time (pose_frame 60 80 100 true)
              - last_alert_time (state_after (repeat (80, 80) 31) 0))
    /\ last_alert_time s'
       = if existsb is_alert evs
         then current_time (pose_frame 60 80 100 true)
         else last_alert_time (state_after (repeat (80, 80) 31) 0).
Proof.
  apply (proj1 alert_limiter (state_after (repeat (80, 80) 31) 0)
                             (pose_frame 60 80 100 true) 60 80);
    reflexivity.
Defined.

(** C6.  When an alert is due (the pass is calibrated, classified as poor
    posture, and the cooldown has elapsed) and [alert.wav] is absent, the pass
    completes without an exception: the alert line is printed, no sound is
    played, and the status on the frame is "Poor Posture".  Playing the
    absent file would have raised. *)
Theorem missing_sound_file :
  forall (s : State) (f : Frame) (sa na : Q),
    ret f = true ->
    pose_landmarks f = Some (sa, na) ->
    is_calibrated (fst (calibrate s sa na)) = true ->
    poor (fst (calibrate s sa na)) sa na = true ->
    alert_cooldown < current_time f - last_alert_time s ->
    sound_file_exists f = false ->
    playsound (sound_file_exists f) sound_file = None
    /\ exists s' evs b,
         iteration s f = Some (s', evs, b)
         /\ existsb is_alert evs = true
         /\ existsb is_playsound evs = false
         /\ status_of evs = Some "Poor Posture"%string.
Proof.
  intros s f sa na Hret Hpose Hcal Hpoor Hdue Hsound.
  split; [rewrite Hsound; reflexivity|].
  destruct (iteration_pose s f sa na Hret Hpose) as (s2 & evs2 & Hfb & Hit).
  rewrite Hit. do 3 eexists. split; [reflexivity|].
  rewrite feedback_eq, Hcal, Hpoor, Hsound in Hfb.
  pose proof (calibrate_cases s sa na) as Hcases.
  destruct (calibrate s sa na) as [s1 evs1]. cbn [fst snd] in *.
  destruct Hcases as (Hlast & Hshape). rewrite Hlast in Hfb.
  apply Qltb_iff in Hdue. rewrite Hdue in Hfb. injection Hfb as _ <-.
  destruct Hshape as [(_ & _ & ->) | [(_ & _ & n & ->) | (_ & _ & x & y & ->)]];
    repeat split; reflexivity.
Qed.

Lemma missing_sound_file_witness :
  playsound (sound_file_exists (pose_frame 60 80 100 false)) sound_file = None
  /\ exists s' evs b,
       iteration (state_after (repeat (80, 80) 31) 0) (pose_frame 60 80 100 false)
       = Some (s', evs, b)
       /\ existsb is_alert evs = true
       /\ existsb is_playsound evs = false
       /\ status_of evs = Some "Poor Posture"%string.
Proof.
  apply (missing_sound_file (state_after (repeat (80, 80) 31) 0)
                            (pose_frame 60 80 100 false) 60 80);
    reflexivity.
Defined.

End AlertLimiter.

(* ================================================================== *)
(** ** Calibration gate and lifetime of the calibration data          *)
(* ================================================================== *)

Section Lifecycle.
Import Session.
Local Open Scope Q_scope.

(** C7, as stated: a pass entered with the calibrated flag unset would put no
    status on the frame and print no alert.  After thirty samples the next
    pass is entered with the flag unset, sets it in the branch of line 89,
    and is classified by line 102 in the same pass. *)
Lemma finalizing_pass_is_classified :
  ~ (forall (fs : list Frame) (f : Frame) s tr s' evs b,
       run init fs = Some (s, tr) ->
       is_calibrated s = false ->
       iteration s f = Some (s', evs, b) ->
       existsb is_status evs = false /\ existsb is_alert evs = false).
Proof.
  intros H.
  destruct (run init (repeat (pose_frame 80 80 0 true) 30))
    as [[s tr]|] eqn:Hrun; [|vm_compute in Hrun; discriminate].
  destruct (iteration s (pose_frame 60 80 100 true))
    as [[[s' evs] b]|] eqn:Hit.
  2:{ vm_compute in Hrun. injection Hrun as <- _.
      vm_compute in Hit. discriminate. }
  assert (Hflag : is_calibrated s = false).
  { vm_compute in Hrun. injection Hrun as <- _. reflexivity. }
  destruct (H _ _ _ _ _ _ _ Hrun Hflag Hit) as [Hst _].
  vm_compute in Hrun. injection Hrun as <- _.
  vm_compute in Hit. injection Hit as _ <- _.
  discriminate Hst.
Qed.

(** C7, amended.  A pass puts a status on the frame, prints an alert or
    plays the sound only if it leaves the calibrated flag set, the thresholds
    having been computed in that pass or before; a pass that leaves the flag
    unset only shows the calibration progress, the overlay and the frame.  The
    pass that sets the flag prints the calibration line and is itself
    classified. *)
Theorem classification_needs_thresholds :
  forall (s : State) (f : Frame) s' evs b,
    iteration s f = Some (s', evs, b) ->
    (existsb is_status evs = true \/ existsb is_alert evs = true
     \/ existsb is_playsound evs = true ->
     is_calibrated s' = true)
    /\ (is_calibrated s' = false ->
        forallb (fun e => is_collect e || is_display e) evs = true)
    /\ (is_calibrated s = false -> is_calibrated s' = true ->
        existsb is_finalize evs = true /\ existsb is_status evs = true).
Proof.
  intros s f s' evs b. unfold iteration.
  destruct (ret f); cbn [negb].
  2:{ intros [= <- <- _]. cbn. repeat split; try congruence.
      intros [|[|]]; discriminate. }
  destruct (pose_landmarks f) as [[sa na]|].
  2:{ intros [= <- <- _]. cbn. repeat split; try congruence.
      intros [|[|]]; discriminate. }
  pose proof (calibrate_cases s sa na) as Hcases.
  destruct (calibrate s sa na) as [s1 evs1].
  destruct Hcases as (_ & Hshape).
  rewrite feedback_eq.
  destruct Hshape as [(Hs & -> & ->)
                     | [(Hs & Hs1 & n & ->) | (Hs & Hs1 & x & y & ->)]].
  - rewrite Hs. destruct (poor s sa na); [destruct (Qltb _ _)|];
      intros [= <- <- _]; cbn [set_last_alert_time is_calibrated];
      repeat split; try congruence;
      destruct (sound_file_exists f); reflexivity.
  - rewrite Hs1. intros [= <- <- _]. cbn. repeat split; try congruence.
    intros [|[|]]; discriminate.
  - rewrite Hs1. destruct (poor s1 sa na); [destruct (Qltb _ _)|];
      intros [= <- <- _]; cbn [set_last_alert_time is_calibrated];
      repeat split; try congruence;
      destruct (sound_file_exists f); reflexivity.
Qed.

Lemma classification_needs_thresholds_witness :
  exists evs,
    iteration (state_after (repeat (80, 80) 30) 0) (pose_frame 60 80 100 true)
    = Some (state_after (repeat (80, 80) 31) 100, evs, false)
    /\ (existsb is_status evs = true \/ existsb is_alert evs = true
        \/ existsb is_playsound evs = true ->
        is_calibrated (state_after (repeat (80, 80) 31) 100) = true)
    /\ (is_calibrated (state_after (repeat (80, 80) 31) 100) = false ->
        forallb (fun e => is_collect e || is_display e) evs = true)
    /\ (is_calibrated (state_after (repeat (80, 80) 30) 0) = false ->
        is_calibrated (state_after (repeat (80, 80) 31) 100) = true ->
        existsb is_finalize evs = true /\ existsb is_status evs = true).
Proof.
  eexists. split.
  - vm_compute. reflexivity.
  - apply (classification_needs_thresholds
             (state_after (repeat (80, 80) 30) 0)
             (pose_frame 60 80 100 true)
             (state_after (repeat (80, 80) 31) 100)
             _ false).
    vm_compute. reflexivity.
Defined.

(** C8, as stated: once the flag is set the raw samples would be gone from
    the program state.  Nothing clears the two lists: after calibration they
    still hold the thirty samples. *)
Lemma samples_kept_after_calibration :
  ~ (forall (fs : list Frame) s tr,
       run init fs = Some (s, tr) ->
       is_calibrated s = true ->
       calibration_shoulder_angles s = [] /\ calibration_neck_angles s = []).
Proof.
  intros H.
  destruct (run init (repeat (pose_frame 80 80 0 true) 32))
    as [[s tr]|] eqn:Hrun; [|vm_compute in Hrun; discriminate].
  assert (Hflag : is_calibrated s = true).
  { vm_compute in Hrun. injection Hrun as <- _. reflexivity. }
  destruct (H _ _ _ Hrun Hflag) as [Hsh _].
  vm_compute in Hrun. injection Hrun as <- _.
  discriminate Hsh.
Qed.

(** C8, amended.  From a state with the calibrated flag set, whatever
    frames follow, the flag stays set and the two thresholds, the two sample
    lists and the frame counter keep their values: only [last_alert_time]
    changes.  In a run from the start the two lists then hold thirty samples
    each; they stay in the program state and are not read again. *)
Theorem thresholds_persist :
  (forall (s : State) (fs : list Frame) s' tr,
     is_calibrated s = true ->
     run s fs = Some (s', tr) ->
     is_calibrated s' = true
     /\ shoulder_threshold s' = shoulder_threshold s
     /\ neck_threshold s' = neck_threshold s
     /\ calibration_shoulder_angles s' = calibration_shoulder_angles s
     /\ calibration_neck_angles s' = calibration_neck_angles s
     /\ calibration_frames s' = calibration_frames s)
  /\ (forall (fs : list Frame) s tr,
        run init fs = Some (s, tr) ->
        is_calibrated s = true ->
        length (calibration_shoulder_angles s) = 30%nat
        /\ length (calibration_neck_angles s) = 30%nat
        /\ calibration_frames s = 30%nat).
Proof.
  split.
  - intros s fs s' tr Hcal Hrun.
    destruct (run_calibrated fs s s' tr Hcal Hrun) as (t & ->).
    cbn [set_last_alert_time is_calibrated shoulder_threshold neck_threshold
         calibration_shoulder_angles calibration_neck_angles calibration_frames].
    repeat split; try reflexivity. exact Hcal.
  - intros fs s tr Hrun Hcal.
    destruct (run_state_after fs [] 0) as (t & tr' & Hrun' & _).
    rewrite <- init_state_after, Hrun in Hrun'. injection Hrun' as -> _.
    cbn [app] in *. unfold state_after in *.
    cbn [is_calibrated calibration_shoulder_angles calibration_neck_angles
         calibration_frames] in *.
    apply Nat.ltb_lt in Hcal.
    rewrite !length_map, length_firstn. lia.
Qed.

Lemma thresholds_persist_witness :
  is_calibrated (state_after (repeat (80, 80) 31) 111) = true
  /\ shoulder_threshold (state_after (repeat (80, 80) 31) 111)
     = shoulder_threshold (state_after (repeat (80, 80) 31) 0)
  /\ neck_threshold (state_after (repeat (80, 80) 31) 111)
     = neck_threshold (state_after (repeat (80, 80) 31) 0)
  /\ calibration_shoulder_angles (state_after (repeat (80, 80) 31) 111)
     = calibration_shoulder_angles (state_after (repeat (80, 80) 31) 0)
  /\ calibration_neck_angles (state_after (repeat (80, 80) 31) 111)
     = calibration_neck_angles (state_after (repeat (80, 80) 31) 0)
  /\ calibration_frames (state_after (repeat (80, 80) 31) 111)
     = calibration_frames (state_after (repeat (80, 80) 31) 0).
Proof.
  apply (proj1 thresholds_persist
           (state_after (repeat (80, 80) 31) 0)
           [pose_frame 60 80 100 true; pose_frame 90 90 105 true;
            pose_frame 60 80 111 true]
           (state_after (repeat (80, 80) 31) 111)
           [[DrawOverlay 60 80; PrintPoorPosture; PlaySound sound_file;
             PutStatus "Poor Posture";
             PutAngles 60 (2100 # 30) 80 (2100 # 30); ImShow];
            [DrawOverlay 90 90; PutStatus "Good Posture";
             PutAngles 90 (2100 # 30) 90 (2100 # 30); ImShow];
            [DrawOverlay 60 80; PrintPoorPosture; PlaySound sound_file;
             PutStatus "Poor Posture";
             PutAngles 60 (2100 # 30) 80 (2100 # 30); ImShow]]);
    vm_compute; reflexivity.
Defined.

(** C10.  A pass that prints the alert line sets [last_alert_time] to the
    current time whether or not [alert.wav] exists.  A run over frames where
    the file is absent ends in the same state as the run over the same frames
    where it may exist, and its trace is the same with the sound events
    removed: the same passes print the alert line. *)
Theorem alert_rate_independent_of_sound :
  (forall (s : State) (f : Frame) s' evs b,
     iteration s f = Some (s', evs, b) ->
     existsb is_alert evs = true ->
     last_alert_time s' = current_time f)
  /\ (forall (s : State) (fs : list Frame),
        exists s' tr tr',
          run s fs = Some (s', tr)
          /\ run s (map mute fs) = Some (s', tr')
          /\ tr' = map (filter (fun e => negb (is_playsound e))) tr
          /\ alerts tr' = alerts tr
          /\ alert_times (map mute fs) tr' = alert_times fs tr).
Proof.
  split.
  - intros s f s' evs b Hit Hfired.
    pose proof (iteration_alert s f s' evs b Hit) as Hal.
    rewrite Hfired in Hal. apply Hal.
  - intros s fs. revert s.
    induction fs as [|f rest IH]; intros s; cbn [run map].
    + exists s, [], []. repeat split.
    + change (isOpened (mute f)) with (isOpened f).
      destruct (isOpened f).
      2:{ exists s, [], []. repeat split. }
      destruct (iteration_total s f) as (s1 & evs & Hit).
      rewrite (iteration_mute s f _ _ _ Hit), Hit.
      destruct (breaks f).
      * do 3 eexists. split; [reflexivity|]. split; [reflexivity|].
        cbn [map alerts alert_times current_time mute].
        rewrite existsb_alert_filter.
        repeat split. destruct rest; reflexivity.
      * destruct (IH s1) as (s2 & tr & tr' & -> & -> & Htr & Hal & Hat).
        do 3 eexists. split; [reflexivity|]. split; [reflexivity|].
        unfold alerts in *. cbn [map alert_times current_time mute].
        rewrite existsb_alert_filter, Hal, Hat, Htr.
        repeat split.
Qed.

Lemma alert_rate_independent_of_sound_witness :
  last_alert_time (state_after (repeat (80, 80) 31) 100)
  = current_time (pose_frame 60 80 100 false).
Proof.
  apply (proj1 alert_rate_independent_of_sound
           (state_after (repeat (80, 80) 31) 0)
           (pose_frame 60 80 100 false)
           (state_after (repeat (80, 80) 31) 100)
           [DrawOverlay 60 80; PrintPoorPosture; PutStatus "Poor Posture";
            PutAngles 60 (2100 # 30) 80 (2100 # 30); ImShow]
           false);
    vm_compute; reflexivity.
Defined.

End Lifecycle.

(* ================================================================== *)
(** ** More on the angle calculator                                   *)
(* ================================================================== *)

Section AngleGeometry.
Import Angle.
Local Open Scope R_scope.

Lemma dot_square_le (u v : Point) :
  dot u v * dot u v
  <= (fst u * fst u + snd u * snd u) * (fst v * fst v + snd v * snd v).
Proof.
  unfold dot. destruct u as [u1 u2], v as [v1 v2]; cbn [fst snd].
  pose proof (Rle_0_sqr (u1 * v2 - u2 * v1)) as H. unfold Rsqr in H. lra.
Qed.

Lemma sum_squares_nonneg (u : Point) : 0 <= fst u * fst u + snd u * snd u.
Proof.
  pose proof (Rle_0_sqr (fst u)). pose proof (Rle_0_sqr (snd u)).
  unfold Rsqr in *. lra.
Qed.

(** Cauchy-Schwarz in the plane. *)
Lemma abs_dot_le_norms (u v : Point) : Rabs (dot u v) <= norm u * norm v.
Proof.
  unfold norm.
  rewrite <- sqrt_mult by apply sum_squares_nonneg.
  rewrite <- sqrt_Rsqr_abs. unfold Rsqr.
  apply sqrt_le_1_alt, dot_square_le.
Qed.

Lemma quotient_strict (a b c : Point) :
  -1 < dot (vsub a b) (vsub c b) / denominator a b c < 1.
Proof.
  pose proof (abs_dot_le_norms (vsub a b) (vsub c b)) as Hcs.
  pose proof epsilon_pos as He.
  assert (Hden : denominator a b c = norm (vsub a b) * norm (vsub c b) + epsilon)
    by reflexivity.
  set (d := dot (vsub a b) (vsub c b)) in *.
  set (den := denominator a b c) in *.
  assert (Habs : -den < d < den).
  { destruct (Rabs_def2 d den) as [H1 H2]; [lra | split; assumption]. }
  assert (Hpos : 0 < den) by lra.
  assert (Hq : d / den * den = d) by (field; lra).
  set (q := d / den) in *.
  split.
  - destruct (Rlt_le_dec (-1) q) as [?|Hle]; [assumption|].
    assert (q * den <= -1 * den) by (apply Rmult_le_compat_r; lra). lra.
  - destruct (Rlt_le_dec q 1) as [?|Hle]; [assumption|].
    assert (1 * den <= q * den) by (apply Rmult_le_compat_r; lra). lra.
Qed.

Lemma quotient_sign (a b c : Point) :
  let d := dot (vsub a b) (vsub c b) in
  let q := d / denominator a b c in
  (q = 0 <-> d = 0) /\ (0 < q <-> 0 < d) /\ (q < 0 <-> d < 0).
Proof.
  cbv zeta.
  pose proof (denominator_pos a b c) as Hden. pose proof epsilon_pos as He.
  set (d := dot (vsub a b) (vsub c b)). set (den := denominator a b c) in *.
  assert (Hpos : 0 < den) by lra.
  assert (Hinv : 0 < / den) by (apply Rinv_0_lt_compat; exact Hpos).
  assert (Hq : d / den * den = d) by (field; lra).
  unfold Rdiv in *. set (i := / den) in *.
  repeat split; intros H; nra.
Qed.

Lemma acos_sign (q : R) :
  -1 <= q <= 1 ->
  (acos q = PI / 2 <-> q = 0)
  /\ (acos q < PI / 2 <-> 0 < q)
  /\ (PI / 2 < acos q <-> q < 0).
Proof.
  intros Hq. pose proof (acos_bound q) as Hb. pose proof PI_RGT_0 as Hpi.
  pose proof (cos_acos q Hq) as Hcos.
  assert (Hlt : acos q < PI / 2 -> 0 < q).
  { intros H. rewrite <- Hcos. apply cos_gt_0; lra. }
  assert (Hgt : PI / 2 < acos q -> q < 0).
  { intros H. rewrite <- Hcos. apply cos_lt_0; lra. }
  assert (Heq : acos q = PI / 2 -> q = 0).
  { intros H. rewrite <- Hcos, H. apply cos_PI2. }
  destruct (Rtotal_order (acos q) (PI / 2)) as [H | [H | H]].
  - pose proof (Hlt H). repeat split; intros; lra.
  - pose proof (Heq H). repeat split; intros; lra.
  - pose proof (Hgt H). repeat split; intros; lra.
Qed.

Lemma degrees_sign (x : R) :
  (degrees x = 90 <-> x = PI / 2)
  /\ (degrees x < 90 <-> x < PI / 2)
  /\ (90 < degrees x <-> PI / 2 < x).
Proof.
  rewrite <- degrees_half_pi. unfold degrees. pose proof PI_RGT_0 as Hpi.
  assert (Hk : 0 < 180 / PI) by (apply Rdiv_lt_0_compat; lra).
  set (k := 180 / PI) in *.
  repeat split; intros H; nra.
Qed.

Lemma angle_sign_of_cosine (q : R) :
  -1 < q < 1 ->
  (degrees (acos q) = 90 <-> q = 0)
  /\ (degrees (acos q) < 90 <-> 0 < q)
  /\ (90 < degrees (acos q) <-> q < 0).
Proof.
  intros Hq.
  destruct (acos_sign q) as (A0 & A1 & A2); [lra|].
  destruct (degrees_sign (acos q)) as (D0 & D1 & D2).
  rewrite D0, D1, D2. repeat split; tauto.
Qed.

(** X4. The angle depends only on the relative positions of the points: it
    is unchanged when the same offset is added to all three. *)
Theorem calculate_angle_translate :
  forall (a b c : Point) (tx ty : R),
    calculate_angle (fst a + tx, snd a + ty) (fst b + tx, snd b + ty)
                    (fst c + tx, snd c + ty)
    = calculate_angle a b c.
Proof.
  intros [ax ay] [bx by_] [cx cy] tx ty. cbn [fst snd].
  unfold calculate_angle, cosine_angle, denominator; cbv zeta.
  assert (H : forall p q : R * R,
             vsub (fst p + tx, snd p + ty) (fst q + tx, snd q + ty) = vsub p q).
  { intros [p1 p2] [q1 q2]. unfold vsub; cbn [fst snd]. f_equal; ring. }
  pose proof (H (ax, ay) (bx, by_)) as Ha. pose proof (H (cx, cy) (bx, by_)) as Hc.
  cbn [fst snd] in Ha, Hc. rewrite Ha, Hc. reflexivity.
Qed.

(** X5. The angle is unchanged by the horizontal mirroring of the frame
    (line 61): replacing every x by [w - x] gives the same result. *)
Theorem calculate_angle_mirror :
  forall (a b c : Point) (w : R),
    calculate_angle (w - fst a, snd a) (w - fst b, snd b) (w - fst c, snd c)
    = calculate_angle a b c.
Proof.
  intros [ax ay] [bx by_] [cx cy] w. cbn [fst snd].
  unfold calculate_angle, cosine_angle, denominator; cbv zeta.
  assert (Hdot : forall p q r : R * R,
             dot (vsub (w - fst p, snd p) (w - fst q, snd q))
                 (vsub (w - fst r, snd r) (w - fst q, snd q))
             = dot (vsub p q) (vsub r q)).
  { intros [p1 p2] [q1 q2] [r1 r2]. unfold dot, vsub; cbn [fst snd]. ring. }
  assert (Hnorm : forall p q : R * R,
             norm (vsub (w - fst p, snd p) (w - fst q, snd q))
             = norm (vsub p q)).
  { intros [p1 p2] [q1 q2]. unfold norm, vsub; cbn [fst snd]. f_equal. ring. }
  pose proof (Hdot (ax, ay) (bx, by_) (cx, cy)) as Hd.
  pose proof (Hnorm (ax, ay) (bx, by_)) as Ha.
  pose proof (Hnorm (cx, cy) (bx, by_)) as Hc.
  cbn [fst snd] in Hd, Ha, Hc. rewrite Hd, Ha, Hc. reflexivity.
Qed.

End AngleGeometry.

(* ================================================================== *)
(** ** Landmarks to angles                                            *)
(* ================================================================== *)

Section PoseFacts.
Import Angle Pose.

Lemma int_scale_bounds (q : Q) (w : Z) :
  (0 <= q)%Q -> (q <= 1)%Q -> (0 <= w)%Z ->
  (0 <= int (q * inject_Z w) <= w)%Z.
Proof.
  destruct q as [n d]. unfold Qle, int. cbn [Qnum Qden Qmult inject_Z].
  intros H0 H1 Hw.
  assert (Hn : (0 <= n)%Z) by lia.
  assert (Hnd : (n <= Z.pos d)%Z) by lia.
  rewrite Pos.mul_1_r.
  rewrite Z.quot_div_nonneg by nia.
  split.
  - apply Z.div_pos; nia.
  - apply Z.div_le_upper_bound; nia.
Qed.

Lemma int_scale_full (q : Q) (w : Z) :
  (q == 1)%Q -> int (q * inject_Z w) = w.
Proof.
  destruct q as [n d]. unfold Qeq, int. cbn [Qnum Qden Qmult inject_Z].
  intros H. assert (Hn : n = Z.pos d) by lia. subst n.
  rewrite Pos.mul_1_r, Z.mul_comm. apply Z.quot_mul. lia.
Qed.

Lemma int_small (q : Q) : (-1 < q)%Q -> (q < 1)%Q -> int q = 0%Z.
Proof.
  destruct q as [n d]. unfold Qlt, int. cbn [Qnum Qden].
  intros H0 H1. apply Z.quot_small_iff; [lia|].
  rewrite Z.abs_lt. cbn [Z.abs]. lia.
Qed.

(** The dot product of line 79 or 80: the second vector points straight up
    from the vertex, so only the rows of the two points matter. *)
Lemma dot_to_top (p v : Z * Z) :
  dot (vsub (point p) (point v)) (vsub (point (fst v, 0%Z)) (point v))
  = IZR ((snd v - snd p) * snd v).
Proof.
  unfold dot, vsub, point. cbn [fst snd].
  rewrite mult_IZR, minus_IZR. ring.
Qed.

Lemma angle_to_top (p v : Z * Z) :
  exists angle : R,
    calculate_angle (point p) (point v) (point (fst v, 0%Z)) = Some angle
    /\ (angle = 90%R <-> ((snd v - snd p) * snd v = 0)%Z)
    /\ ((angle < 90)%R <-> (0 < (snd v - snd p) * snd v)%Z)
    /\ ((90 < angle)%R <-> ((snd v - snd p) * snd v < 0)%Z).
Proof.
  rewrite calculate_angle_defined. eexists. split; [reflexivity|].
  pose proof (quotient_strict (point p) (point v) (point (fst v, 0%Z))) as Hq.
  rewrite clip_id by lra.
  destruct (quotient_sign (point p) (point v) (point (fst v, 0%Z)))
    as (Q0 & Q1 & Q2).
  destruct (angle_sign_of_cosine _ Hq) as (S0 & S1 & S2).
  rewrite S0, S1, S2, Q0, Q1, Q2, dot_to_top. repeat split.
  - apply eq_IZR.
  - intros ->. reflexivity.
  - apply lt_IZR.
  - apply IZR_lt.
  - apply lt_IZR.
  - apply IZR_lt.
Qed.

(** X6. A landmark whose relative coordinates are within [0, 1] maps to a
    pixel with column in [0, width] and row in [0, height].  Both ends are
    reached: relative coordinate 1 maps to column [width] (row [height]),
    one past the last column (row) of the frame. *)
Theorem pixel_in_frame :
  forall (l : Landmark) (width height : Z),
    (0 <= x l)%Q -> (x l <= 1)%Q -> (0 <= y l)%Q -> (y l <= 1)%Q ->
    (0 <= width)%Z -> (0 <= height)%Z ->
    (0 <= fst (pixel l width height) <= width)%Z
    /\ (0 <= snd (pixel l width height) <= height)%Z
    /\ ((x l == 1)%Q -> fst (pixel l width height) = width)
    /\ ((y l == 1)%Q -> snd (pixel l width height) = height).
Proof.
  intros l w h Hx0 Hx1 Hy0 Hy1 Hw Hh. unfold pixel. cbn [fst snd].
  repeat split; try (apply int_scale_bounds; assumption);
    apply int_scale_full.
Qed.

Lemma pixel_in_frame_witness :
  (0 <= fst (pixel (mkLandmark 1 (1 # 2)) 640 480) <= 640)%Z
  /\ (0 <= snd (pixel (mkLandmark 1 (1 # 2)) 640 480) <= 480)%Z
  /\ ((x (mkLandmark 1 (1 # 2)) == 1)%Q
      -> fst (pixel (mkLandmark 1 (1 # 2)) 640 480) = 640%Z)
  /\ ((y (mkLandmark 1 (1 # 2)) == 1)%Q
      -> snd (pixel (mkLandmark 1 (1 # 2)) 640 480) = 480%Z).
Proof.
  apply (pixel_in_frame (mkLandmark 1 (1 # 2)) 640 480);
    vm_compute; congruence.
Defined.

(** X7. [int] truncates toward zero, so a landmark less than one pixel
    outside the left or top border (a product strictly between -1 and 0)
    lands on column or row 0, like the landmarks of the first column or
    row. *)
Theorem pixel_truncates :
  forall (l : Landmark) (width height : Z),
    (-1 < x l * inject_Z width)%Q -> (x l * inject_Z width < 1)%Q ->
    (-1 < y l * inject_Z height)%Q -> (y l * inject_Z height < 1)%Q ->
    pixel l width height = (0, 0)%Z.
Proof.
  intros l w h Hx0 Hx1 Hy0 Hy1. unfold pixel.
  rewrite (int_small _ Hx0 Hx1), (int_small _ Hy0 Hy1). reflexivity.
Qed.

Lemma pixel_truncates_witness :
  pixel (mkLandmark (-1 # 1000) (-1 # 1000)) 640 480 = (0, 0)%Z.
Proof.
  apply (pixel_truncates (mkLandmark (-1 # 1000) (-1 # 1000)) 640 480);
    reflexivity.
Defined.

(** X8. The shoulder midpoint lies between the two shoulders in each
    coordinate, and does not depend on which shoulder is given first. *)
Theorem shoulder_mid_between :
  forall ls rs : Z * Z,
    (Z.min (fst ls) (fst rs) <= fst (shoulder_mid ls rs)
     <= Z.max (fst ls) (fst rs))%Z
    /\ (Z.min (snd ls) (snd rs) <= snd (shoulder_mid ls rs)
        <= Z.max (snd ls) (snd rs))%Z
    /\ shoulder_mid ls rs = shoulder_mid rs ls.
Proof.
  intros [lx ly] [rx ry]. unfold shoulder_mid. cbn [fst snd].
  pose proof (Z.div_mod (lx + rx) 2 ltac:(lia)).
  pose proof (Z.mod_pos_bound (lx + rx) 2 ltac:(lia)).
  pose proof (Z.div_mod (ly + ry) 2 ltac:(lia)).
  pose proof (Z.mod_pos_bound (ly + ry) 2 ltac:(lia)).
  repeat split; try lia.
  rewrite (Z.add_comm lx rx), (Z.add_comm ly ry). reflexivity.
Qed.






(** X11. On the top row the reference point coincides with the vertex and
    both angles are exactly 90 degrees, wherever the other points are: the
    shoulder angle when the shoulder midpoint is on row 0, the neck angle
    when the left shoulder is on row 0. *)
Theorem angles_on_top_row :
  (forall ls rs : Z * Z,
     snd (shoulder_mid ls rs) = 0%Z -> shoulder_angle ls rs = Some 90%R)
  /\ (forall le ls : Z * Z,
        snd ls = 0%Z -> neck_angle le ls = Some 90%R).
Proof.
  split.
  - intros ls rs Hrow. unfold shoulder_angle; cbv zeta.
    destruct (angle_to_top ls (shoulder_mid ls rs))
      as (angle & -> & H0 & _).
    f_equal. apply H0. rewrite Hrow. lia.
  - intros le ls Hrow. unfold neck_angle.
    destruct (angle_to_top le ls) as (angle & -> & H0 & _).
    f_equal. apply H0. rewrite Hrow. lia.
Qed.

Lemma angles_on_top_row_witness :
  shoulder_angle (300, 0)%Z (400, 1)%Z = Some 90%R.
Proof.
  apply (proj1 angles_on_top_row (300, 0)%Z (400, 1)%Z). reflexivity.
Defined.

End PoseFacts.

(* ================================================================== *)
(** ** More on the loop                                               *)
(* ================================================================== *)

Section LoopFacts.
Import Session Trace.
Local Open Scope Q_scope.

Lemma quit_pressed_iff (f : Frame) :
  quit_pressed f = true <-> (waitKey f mod 256 = 113)%Z.
Proof.
  unfold quit_pressed. rewrite Z.eqb_eq.
  change 255%Z with (Z.ones 8). rewrite Z.land_ones by lia.
  reflexivity.
Qed.

(** X12. A pass ends the loop exactly when a frame was read and the low
    byte of the key code is 113 ('q'): codes such as 113 + 256 quit too,
    'Q' (81) and "no key" (-1) do not, and a key pressed during a failed
    read is not looked at. *)
Theorem break_iff_low_byte_q :
  forall (s : State) (f : Frame),
    exists s' evs b,
      iteration s f = Some (s', evs, b)
      /\ (b = true <-> ret f = true /\ (waitKey f mod 256 = 113)%Z).
Proof.
  intros s f. destruct (iteration_total s f) as (s' & evs & Hit).
  exists s', evs, (breaks f). split; [exact Hit|].
  unfold breaks. rewrite andb_true_iff, quit_pressed_iff. reflexivity.
Qed.

(** X13. While the capture stays open and every read fails, the loop never
    ends and does nothing: the state is unchanged, nothing is drawn or
    shown, and the key codes, whatever they are, are ignored. *)
Theorem failed_reads_spin :
  forall (s : State) (fs : list Frame),
    (forall f, In f fs -> isOpened f = true /\ ret f = false) ->
    executed fs = fs
    /\ run s fs = Some (s, map (fun _ => []) fs).
Proof.
  intros s fs. induction fs as [|f rest IH]; intros Hall; [split; reflexivity|].
  destruct (Hall f (or_introl eq_refl)) as [Hopen Hret].
  destruct IH as [IHe IHr]; [intros g Hg; apply Hall; right; exact Hg|].
  cbn [executed run map]. unfold breaks, iteration.
  rewrite Hopen, Hret. cbn [negb andb]. rewrite IHe, IHr. split; reflexivity.
Qed.

Lemma failed_reads_spin_witness :
  executed [mkFrame true false None 5 true 113; mkFrame true false None 6 true 113]
  = [mkFrame true false None 5 true 113; mkFrame true false None 6 true 113]
  /\ run init [mkFrame true false None 5 true 113;
               mkFrame true false None 6 true 113]
     = Some (init, map (fun _ => [])
                     [mkFrame true false None 5 true 113;
                      mkFrame true false None 6 true 113]).
Proof.
  apply (failed_reads_spin init
           [mkFrame true false None 5 true 113;
            mkFrame true false None 6 true 113]).
  intros f [<- | [<- | []]]; split; reflexivity.
Defined.

Lemma run_executed (fs : list Frame) :
  forall s, run s (executed fs) = run s fs.
Proof.
  induction fs as [|f rest IH]; intros s; [reflexivity|].
  cbn [executed run]. destruct (isOpened f) eqn:Hopen; [|reflexivity].
  cbn [run]. rewrite Hopen.
  destruct (iteration_total s f) as (s1 & evs & ->).
  destruct (breaks f); [reflexivity|]. rewrite IH. reflexivity.
Qed.

Lemma run_length (fs : list Frame) :
  forall s s' tr, run s fs = Some (s', tr) -> length tr = length (executed fs).
Proof.
  induction fs as [|f rest IH]; intros s s' tr; cbn [run executed].
  - intros [= _ <-]. reflexivity.
  - destruct (isOpened f); [|intros [= _ <-]; reflexivity].
    destruct (iteration_total s f) as (s1 & evs & ->).
    destruct (breaks f); [intros [= _ <-]; reflexivity|].
    destruct (run s1 rest) as [[s2 tr2]|] eqn:Hrun; [|discriminate].
    intros [= _ <-]. cbn [length]. f_equal. exact (IH _ _ _ Hrun).
Qed.

(** X14. The loop stops at the first pass that finds the capture closed or
    ends in [break]: the frames after it change nothing.  A run over [fs]
    is the run over the passes that execute, one trace entry each. *)
Theorem run_stops_at_break :
  forall (s : State) (fs : list Frame),
    exists s' tr,
      run s fs = Some (s', tr)
      /\ run s (executed fs) = Some (s', tr)
      /\ length tr = length (executed fs)
      /\ forall f more,
           isOpened f = false \/ breaks f = true ->
           run s (fs ++ f :: more) = run s (fs ++ [f]).
Proof.
  intros s fs. destruct (run_total fs s) as (s' & tr & Hrun).
  exists s', tr. split; [exact Hrun|].
  split; [rewrite run_executed; exact Hrun|].
  split; [exact (run_length fs s s' tr Hrun)|].
  intros f more Hstop. clear Hrun. revert s.
  induction fs as [|g rest IH]; intros s; cbn [app run].
  - destruct (isOpened f); [|reflexivity].
    destruct Hstop as [Hc | Hb]; [discriminate|].
    destruct (iteration_total s f) as (s1 & evs & ->). rewrite Hb. reflexivity.
  - destruct (isOpened g); [|reflexivity].
    destruct (iteration_total s g) as (s1 & evs & ->).
    destruct (breaks g); [reflexivity|]. rewrite IH. reflexivity.
Qed.

Lemma run_stops_at_break_witness :
  run init ([pose_frame 80 80 0 true]
            ++ mkFrame true true None 1 true 113 :: [pose_frame 80 80 2 true])
  = run init ([pose_frame 80 80 0 true] ++ [mkFrame true true None 1 true 113]).
Proof.
  destruct (run_stops_at_break init [pose_frame 80 80 0 true])
    as (s' & tr & _ & _ & _ & H).
  apply (H (mkFrame true true None 1 true 113) [pose_frame 80 80 2 true]).
  right. reflexivity.
Defined.

(** *** The progress text *)

Lemma shown_app (l1 l2 : list Event) : shown (l1 ++ l2) = shown l1 ++ shown l2.
Proof. unfold shown. apply flat_map_app. Qed.

Lemma shown_calibrate_events (ps : list (Q * Q)) :
  shown (calibrate_events ps)
  = if (length ps <? 30)%nat then [S (length ps)] else [].
Proof.
  unfold calibrate_events; cbv zeta.
  destruct (length ps <? 30)%nat; [reflexivity|].
  destruct (length ps =? 30)%nat; reflexivity.
Qed.

Lemma shown_feedback (s : State) (f : Frame) (sa na : Q) s' evs :
  feedback s f sa na = Some (s', evs) -> shown evs = [].
Proof.
  rewrite feedback_eq.
  destruct (is_calibrated s); [|intros [= _ <-]; reflexivity].
  destruct (poor s sa na); [|intros [= _ <-]; reflexivity].
  destruct (Qltb _ _); intros [= _ <-]; [|reflexivity].
  destruct (sound_file_exists f); reflexivity.
Qed.

Lemma shown_pass (evs1 evs2 : list Event) (sa na : Q) :
  shown (evs1 ++ DrawOverlay sa na :: evs2 ++ [ImShow])
  = shown evs1 ++ shown evs2.
Proof.
  rewrite shown_app. f_equal.
  change (shown (evs2 ++ [ImShow]) = shown evs2).
  rewrite shown_app. apply app_nil_r.
Qed.

Lemma iteration_shown (ps : list (Q * Q)) (t : Q) (f : Frame) s' evs b :
  iteration (state_after ps t) f = Some (s', evs, b) ->
  shown evs
  = if (length ps <? 30)%nat
    then map (fun _ => S (length ps)) (sample f) else [].
Proof.
  unfold sample.
  destruct (ret f) eqn:Hret.
  2:{ unfold iteration. rewrite Hret. intros [= _ <- _].
      destruct (length ps <? 30)%nat; reflexivity. }
  destruct (pose_landmarks f) as [[sa na]|] eqn:Hpose.
  2:{ unfold iteration. rewrite Hret, Hpose. intros [= _ <- _].
      destruct (length ps <? 30)%nat; reflexivity. }
  destruct (iteration_pose (state_after ps t) f sa na Hret Hpose)
    as (s2 & evs2 & Hfb & ->).
  intros [= _ <- _].
  rewrite calibrate_state_after in *. cbn [fst snd] in *.
  rewrite shown_pass, (shown_feedback _ _ _ _ _ _ Hfb), shown_calibrate_events.
  destruct (length ps <? 30)%nat; reflexivity.
Qed.

Lemma progress_cons (evs : list Event) (tr : list (list Event)) :
  progress (evs :: tr) = shown evs ++ progress tr.
Proof. unfold progress. cbn [concat]. apply shown_app. Qed.

Lemma run_progress (fs : list Frame) :
  forall (ps : list (Q * Q)) (t : Q),
  exists t' tr,
    run (state_after ps t) fs
    = Some (state_after (ps ++ samples (executed fs)) t', tr)
    /\ progress tr
       = seq (S (length ps))
             (Nat.min 30 (length (ps ++ samples (executed fs)))
              - Nat.min 30 (length ps)).
Proof.
  induction fs as [|f rest IH]; intros ps t; cbn [run executed].
  - exists t, []. cbn [samples flat_map]. rewrite app_nil_r, Nat.sub_diag.
    split; reflexivity.
  - destruct (isOpened f).
    2:{ exists t, []. cbn [samples flat_map]. rewrite app_nil_r, Nat.sub_diag.
        split; reflexivity. }
    destruct (iteration_state_after ps t f) as (t1 & evs & Hit & _).
    pose proof (iteration_shown ps t f _ _ _ Hit) as Hshown.
    pose proof (sample_length f) as Hlen.
    rewrite Hit. destruct (breaks f).
    + exists t1, [evs]. cbn [samples flat_map]. rewrite app_nil_r.
      split; [reflexivity|].
      rewrite progress_cons, Hshown. unfold progress. cbn [concat shown flat_map].
      rewrite app_nil_r, length_app.
      destruct (sample f) as [|p [|q l]]; cbn [length map] in *; try lia.
      * rewrite Nat.add_0_r, Nat.sub_diag. destruct (_ <? _)%nat; reflexivity.
      * destruct (Nat.ltb_spec (length ps) 30).
        -- replace (Nat.min 30 (length ps + 1) - Nat.min 30 (length ps))%nat
             with 1%nat by lia. reflexivity.
        -- replace (Nat.min 30 (length ps + 1) - Nat.min 30 (length ps))%nat
             with 0%nat by lia. reflexivity.
    + destruct (IH (ps ++ sample f) t1) as (t2 & tr & -> & Htr).
      exists t2, (evs :: tr). cbn [samples flat_map].
      fold (samples (executed rest)). rewrite app_assoc.
      split; [reflexivity|].
      rewrite progress_cons, Hshown, Htr.
      rewrite !length_app in *.
      set (n := length (samples (executed rest))) in *.
      destruct (sample f) as [|p [|q l]]; cbn [length map] in *; try lia.
      * rewrite Nat.add_0_r. destruct (_ <? _)%nat; reflexivity.
      * destruct (Nat.ltb_spec (length ps) 30).
        -- replace (Nat.min 30 (length ps + 1 + n) - Nat.min 30 (length ps))%nat
             with (S (Nat.min 30 (length ps + 1 + n)
                      - Nat.min 30 (length ps + 1)))%nat by lia.
           cbn [seq app]. rewrite Nat.add_1_r. reflexivity.
        -- replace (Nat.min 30 (length ps + 1 + n) - Nat.min 30 (length ps))%nat
             with 0%nat by lia.
           replace (Nat.min 30 (length ps + 1 + n) - Nat.min 30 (length ps + 1))%nat
             with 0%nat by lia.
           reflexivity.
Qed.

(** X15. In every run the counts shown as "Calibrating... n/30" are
    1, 2, ..., up to the number of angle pairs computed so far and never
    beyond 30: each count once, in order, none skipped. *)
Theorem progress_counts_up :
  forall fs : list Frame,
    exists s tr,
      run init fs = Some (s, tr)
      /\ progress tr
         = count_to (Nat.min 30 (length (samples (executed fs)))).
Proof.
  intros fs. destruct (run_progress fs [] 0) as (t & tr & Hrun & Hpr).
  rewrite <- init_state_after in Hrun.
  do 2 eexists. split; [exact Hrun|].
  rewrite Hpr. cbn [app length]. rewrite Nat.sub_0_r. reflexivity.
Qed.

(** *** What a pass shows *)

(** X16. In every pass the sound is played exactly when the alert line is
    printed and [alert.wav] exists, and a pass that prints the alert line
    shows the status "Poor Posture": no sound without an alert, no alert on
    a frame shown as good. *)
Theorem alert_events_consistent :
  forall (s : State) (f : Frame) s' evs b,
    iteration s f = Some (s', evs, b) ->
    existsb is_playsound evs = existsb is_alert evs && sound_file_exists f
    /\ (existsb is_alert evs = true
        -> status_of evs = Some "Poor Posture"%string).
Proof.
  intros s f s' evs b. unfold iteration.
  destruct (ret f); cbn [negb].
  2:{ intros [= _ <- _]. split; [reflexivity | discriminate]. }
  destruct (pose_landmarks f) as [[sa na]|].
  2:{ intros [= _ <- _]. split; [reflexivity | discriminate]. }
  pose proof (calibrate_cases s sa na) as Hcases.
  destruct (calibrate s sa na) as [s1 evs1].
  destruct Hcases as (_ & Hshape).
  rewrite feedback_eq.
  destruct Hshape as [(_ & _ & ->) | [(_ & _ & n & ->) | (_ & _ & x & y & ->)]];
    (destruct (is_calibrated s1);
     [destruct (poor s1 sa na); [destruct (Qltb _ _)|]|]);
    intros [= _ <- _];
    try (split; [reflexivity | discriminate]);
    destruct (sound_file_exists f); split; reflexivity.
Qed.

Lemma alert_events_consistent_witness :
  exists evs,
    iteration (state_after (repeat (80, 80) 31) 0) (pose_frame 60 80 100 true)
    = Some (state_after (repeat (80, 80) 31) 100, evs, false)
    /\ existsb is_playsound evs
       = existsb is_alert evs && sound_file_exists (pose_frame 60 80 100 true)
    /\ (existsb is_alert evs = true
        -> status_of evs = Some "Poor Posture"%string).
Proof.
  eexists. split.
  - vm_compute. reflexivity.
  - apply (alert_events_consistent
             (state_after (repeat (80, 80) 31) 0)
             (pose_frame 60 80 100 true)
             (state_after (repeat (80, 80) 31) 100) _ false).
    vm_compute. reflexivity.
Defined.

(** X17. The progress text and the status text share one place on the
    frame, and a pass never draws both: a pass with a frame and a pose draws
    exactly one of them (the status from the pass that computes the
    thresholds on), any other pass draws neither. *)
Theorem progress_or_status :
  forall (s : State) (f : Frame) s' evs b,
    iteration s f = Some (s', evs, b) ->
    existsb is_collect evs && existsb is_status evs = false
    /\ (existsb is_collect evs || existsb is_status evs
        = match sample f with [] => false | _ => true end).
Proof.
  intros s f s' evs b. unfold iteration, sample.
  destruct (ret f); cbn [negb].
  2:{ intros [= _ <- _]. split; reflexivity. }
  destruct (pose_landmarks f) as [[sa na]|].
  2:{ intros [= _ <- _]. split; reflexivity. }
  pose proof (calibrate_cases s sa na) as Hcases.
  destruct (calibrate s sa na) as [s1 evs1].
  destruct Hcases as (_ & Hshape).
  rewrite feedback_eq.
  destruct Hshape as [(Hs & -> & ->)
                     | [(_ & Hs1 & n & ->) | (_ & Hs1 & x & y & ->)]];
    [rewrite Hs | rewrite Hs1 | rewrite Hs1];
    try (destruct (poor _ sa na); [destruct (Qltb _ _)|]);
    intros [= _ <- _];
    try (split; reflexivity);
    destruct (sound_file_exists f); split; reflexivity.
Qed.

Lemma progress_or_status_witness :
  exists evs,
    iteration init (pose_frame 80 80 0 true)
    = Some (state_after [(80, 80)] 0, evs, false)
    /\ existsb is_collect evs && existsb is_status evs = false
    /\ (existsb is_collect evs || existsb is_status evs
        = match sample (pose_frame 80 80 0 true) with
          | [] => false | _ => true end).
Proof.
  eexists. split.
  - vm_compute. reflexivity.
  - apply (progress_or_status init (pose_frame 80 80 0 true)
             (state_after [(80, 80)] 0) _ false).
    vm_compute. reflexivity.
Defined.

(** X18. While no pass computes an angle pair (reads fail or no pose is
    found) the state does not change, and the only thing a pass does is show
    the frame: calibration does not advance and nothing is classified. *)
Theorem run_without_pose :
  forall (s : State) (fs : list Frame),
    samples (executed fs) = [] ->
    exists tr,
      run s fs = Some (s, tr)
      /\ Forall (fun evs => evs = [] \/ evs = [ImShow]) tr.
Proof.
  intros s fs. induction fs as [|f rest IH]; cbn [executed run].
  - intros _. exists []. split; [reflexivity | constructor].
  - destruct (isOpened f).
    2:{ intros _. exists []. split; [reflexivity | constructor]. }
    cbn [samples flat_map]. unfold breaks, iteration, sample.
    destruct (ret f); cbn [negb andb app].
    + destruct (pose_landmarks f) as [p|]; [discriminate|].
      destruct (quit_pressed f).
      * intros _. exists [[ImShow]]. split; [reflexivity|].
        constructor; [right; reflexivity | constructor].
      * intros Hs. destruct (IH Hs) as (tr & -> & Htr).
        exists ([ImShow] :: tr). split; [reflexivity|].
        constructor; [right; reflexivity | exact Htr].
    + intros Hs. destruct (IH Hs) as (tr & -> & Htr).
      exists ([] :: tr). split; [reflexivity|].
      constructor; [left; reflexivity | exact Htr].
Qed.

Lemma run_without_pose_witness :
  exists tr,
    run (state_after (repeat (80, 80) 12) 0)
        [mkFrame true true None 1 true (-1); mkFrame true false None 2 true (-1)]
    = Some (state_after (repeat (80, 80) 12) 0, tr)
    /\ Forall (fun evs => evs = [] \/ evs = [ImShow]) tr.
Proof.
  apply (run_without_pose (state_after (repeat (80, 80) 12) 0)
           [mkFrame true true None 1 true (-1);
            mkFrame true false None 2 true (-1)]).
  reflexivity.
Defined.

End LoopFacts.

(* ================================================================== *)
(** ** More on alert times                                            *)
(* ================================================================== *)

Section AlertTimes.
Import Session.
Local Open Scope Q_scope.

Lemma iteration_last_alert (s : State) (f : Frame) s' evs b :
  iteration s f = Some (s', evs, b) ->
  last_alert_time s <= last_alert_time s'.
Proof.
  intros Hit. pose proof (iteration_alert s f s' evs b Hit) as Hal.
  destruct (existsb is_alert evs).
  - destruct Hal as [Hdue ->]. unfold alert_cooldown in Hdue. Lqa.lra.
  - rewrite Hal. apply Qle_refl.
Qed.

(** X19. [last_alert_time] never goes back during a run, even if the
    clock does: it changes only when an alert fires, and then to a time more
    than the cooldown later. *)
Theorem last_alert_time_monotone :
  forall (s : State) (fs : list Frame) s' tr,
    run s fs = Some (s', tr) ->
    last_alert_time s <= last_alert_time s'.
Proof.
  intros s fs. revert s.
  induction fs as [|f rest IH]; intros s s' tr; cbn [run].
  - intros [= <- _]. apply Qle_refl.
  - destruct (isOpened f); [|intros [= <- _]; apply Qle_refl].
    destruct (iteration s f) as [[[s1 evs] brk]|] eqn:Hit; [|discriminate].
    pose proof (iteration_last_alert s f s1 evs brk Hit) as H1.
    destruct brk; [intros [= <- _]; exact H1|].
    destruct (run s1 rest) as [[s2 tr2]|] eqn:Hrun; [|discriminate].
    intros [= <- _]. pose proof (IH s1 s2 tr2 Hrun) as H2.
    exact (Qle_trans _ _ _ H1 H2).
Qed.

Lemma last_alert_time_monotone_witness :
  last_alert_time (state_after (repeat (80, 80) 31) 50)
  <= last_alert_time (state_after (repeat (80, 80) 31) 61).
Proof.
  apply (last_alert_time_monotone
           (state_after (repeat (80, 80) 31) 50)
           [pose_frame 60 80 20 true; pose_frame 60 80 61 true]
           (state_after (repeat (80, 80) 31) 61)
           [[DrawOverlay 60 80; PutStatus "Poor Posture";
             PutAngles 60 (2100 # 30) 80 (2100 # 30); ImShow];
            [DrawOverlay 60 80; PrintPoorPosture; PlaySound sound_file;
             PutStatus "Poor Posture";
             PutAngles 60 (2100 # 30) 80 (2100 # 30); ImShow]]).
  vm_compute. reflexivity.
Defined.

Lemma inject_succ (n : nat) :
  inject_Z (Z.of_nat (S n)) == inject_Z (Z.of_nat n) + 1.
Proof. rewrite Nat2Z.inj_succ, <- Z.add_1_r, inject_Z_plus. reflexivity. Qed.

Lemma spaced_nth (ts : list Q) :
  forall (t0 : Q) (k : nat) (t : Q),
    spaced t0 ts -> nth_error ts k = Some t ->
    t0 + alert_cooldown * inject_Z (Z.of_nat (S k)) < t.
Proof.
  unfold alert_cooldown.
  induction ts as [|u rest IH]; intros t0 k t Hsp Hnth.
  - destruct k; discriminate.
  - destruct Hsp as [Hu Hrest]. unfold alert_cooldown in Hu.
    destruct k as [|k]; cbn [nth_error] in Hnth.
    + injection Hnth as <-. change (inject_Z (Z.of_nat 1)) with 1. Lqa.lra.
    + specialize (IH u k t Hrest Hnth).
      rewrite (inject_succ (S k)). Lqa.lra.
Qed.

(** X20. Counting from the start of a run, the k-th alert (k = 1, 2, ...)
    has a time stamp greater than 10 k: by time t at most t / 10 alerts have
    fired. *)
Theorem alert_count_bound :
  forall (fs : list Frame),
    exists s tr,
      run init fs = Some (s, tr)
      /\ forall (k : nat) (t : Q),
           nth_error (alert_times fs tr) k = Some t ->
           alert_cooldown * inject_Z (Z.of_nat (S k)) < t.
Proof.
  intros fs. destruct (run_spaced fs init) as (s & tr & Hrun & Hsp).
  exists s, tr. split; [exact Hrun|].
  intros k t Hnth. pose proof (spaced_nth _ _ k t Hsp Hnth) as H.
  cbn [init last_alert_time] in H. Lqa.lra.
Qed.

End AlertTimes.

(* ================================================================== *)
(** ** The angle calculator on machine numbers                        *)
(* ================================================================== *)

Section MachineFacts.
Import Machine.
Local Open Scope R_scope.

Ltac zle := apply IZR_le, Z.leb_le; vm_compute; reflexivity.

Lemma overflow_finite (r : R) : Rabs r <= max_float -> overflow r = Finite r.
Proof.
  intros H. unfold overflow. destruct (Rle_dec (Rabs r) max_float);
    [reflexivity | contradiction].
Qed.

Lemma overflow_zero : overflow 0 = Finite 0.
Proof.
  apply overflow_finite. rewrite Rabs_R0. unfold max_float. zle.
Qed.

Lemma big_squares : 4 * (IZR (2 ^ 500) * IZR (2 ^ 500)) + 1 <= max_float.
Proof.
  unfold max_float. rewrite <- !mult_IZR, <- plus_IZR. zle.
Qed.

Lemma big_quotient :
  2 * (IZR (2 ^ 500) * IZR (2 ^ 500)) * 1000000 <= max_float.
Proof. unfold max_float. rewrite <- !mult_IZR. zle. Qed.

Lemma big_pos : 0 < IZR (2 ^ 500).
Proof. apply IZR_lt. reflexivity. Qed.

Lemma abs_mul_le (x y bx by_ : R) :
  Rabs x <= bx -> Rabs y <= by_ -> Rabs (x * y) <= bx * by_.
Proof.
  intros Hx Hy. rewrite Rabs_mult.
  apply Rmult_le_compat; auto using Rabs_pos.
Qed.

Lemma wrap_int64 (z : Z) : int64 (wrap z) = true.
Proof.
  unfold int64, wrap.
  pose proof (Z.mod_pos_bound (z + 2 ^ 63) (2 ^ 64) ltac:(reflexivity)) as H.
  set (m := ((z + 2 ^ 63) mod 2 ^ 64)%Z) in *.
  apply andb_true_iff. split; [apply Z.leb_le | apply Z.ltb_lt]; lia.
Qed.

Lemma int64_abs (z : Z) : int64 z = true -> Rabs (IZR z) <= IZR (2 ^ 63).
Proof.
  unfold int64. rewrite andb_true_iff, Z.leb_le, Z.ltb_lt. intros [Hl Hh].
  rewrite <- abs_IZR. apply IZR_le.
  apply Z.abs_le. split; [exact Hl | apply Z.lt_le_incl; exact Hh].
Qed.

Lemma astype_float_bounded (v : array) :
  bounded v ->
  exists x y,
    astype_float v = (Finite x, Finite y)
    /\ Rabs x <= IZR (2 ^ 500) /\ Rabs y <= IZR (2 ^ 500).
Proof.
  assert (H63 : IZR (2 ^ 63) <= IZR (2 ^ 500)) by zle.
  assert (HM : IZR (2 ^ 500) <= max_float) by (unfold max_float; zle).
  destruct v as [x y | [x| | |] [y| | |]]; cbn [bounded astype_float];
    try contradiction.
  - intros [Hx Hy]. apply int64_abs in Hx, Hy.
    exists (IZR x), (IZR y).
    rewrite !overflow_finite by lra. repeat split; lra.
  - intros [Hx Hy]. exists x, y. repeat split; assumption.
Qed.

Lemma np_array_in_range (p : Point) :
  in_range p ->
  exists v,
    np_array p = Some v
    /\ match v with
       | IntArray x y => int64 x = true /\ int64 y = true
       | FloatArray u w =>
           exists x y, u = Finite x /\ w = Finite y
                       /\ Rabs x <= IZR (2 ^ 499) /\ Rabs y <= IZR (2 ^ 499)
       end.
Proof.
  assert (HM : IZR (2 ^ 499) <= max_float) by (unfold max_float; zle).
  destruct p as [x y | x y]; cbn [in_range np_array].
  - intros [Hx Hy]. rewrite Hx, Hy. eexists. split; [reflexivity|].
    split; assumption.
  - intros [Hx Hy]. eexists. split; [reflexivity|].
    exists x, y. rewrite !overflow_finite by lra. repeat split; assumption.
Qed.

Lemma sub_finite (x y : R) :
  Rabs x <= IZR (2 ^ 499) -> Rabs y <= IZR (2 ^ 499) ->
  sub (Finite x) (Finite y) = Finite (x + - y)
  /\ Rabs (x + - y) <= IZR (2 ^ 500).
Proof.
  intros Hx Hy.
  assert (H2 : IZR (2 ^ 499) + IZR (2 ^ 499) <= IZR (2 ^ 500))
    by (rewrite <- plus_IZR; zle).
  assert (HM : IZR (2 ^ 500) <= max_float) by (unfold max_float; zle).
  assert (Hb : Rabs (x + - y) <= IZR (2 ^ 500)).
  { eapply Rle_trans; [apply Rabs_triang|]. rewrite Rabs_Ropp. lra. }
  split; [|exact Hb].
  unfold sub, neg, add. apply overflow_finite. lra.
Qed.

(** The differences of line 17 and 18 are small enough for line 20. *)
Lemma asub_bounded (p q : Point) (v w : array) :
  in_range p -> in_range q ->
  np_array p = Some v -> np_array q = Some w ->
  bounded (asub v w).
Proof.
  intros Hp Hq Hv Hw.
  assert (H63 : IZR (2 ^ 63) <= IZR (2 ^ 499)) by zle.
  assert (HM : IZR (2 ^ 499) <= max_float) by (unfold max_float; zle).
  destruct (np_array_in_range p Hp) as (v' & Hv' & Hvr).
  destruct (np_array_in_range q Hq) as (w' & Hw' & Hwr).
  rewrite Hv in Hv'. rewrite Hw in Hw'.
  injection Hv' as <-. injection Hw' as <-.
  assert (Hfv : exists x y, astype_float v = (Finite x, Finite y)
                  /\ Rabs x <= IZR (2 ^ 499) /\ Rabs y <= IZR (2 ^ 499)).
  { destruct v as [x y | u1 u2]; cbn [astype_float].
    - destruct Hvr as [Hx Hy]. apply int64_abs in Hx, Hy.
      exists (IZR x), (IZR y). rewrite !overflow_finite by lra.
      repeat split; lra.
    - destruct Hvr as (x & y & -> & -> & Hx & Hy). eauto. }
  assert (Hfw : exists x y, astype_float w = (Finite x, Finite y)
                  /\ Rabs x <= IZR (2 ^ 499) /\ Rabs y <= IZR (2 ^ 499)).
  { destruct w as [x y | u1 u2]; cbn [astype_float].
    - destruct Hwr as [Hx Hy]. apply int64_abs in Hx, Hy.
      exists (IZR x), (IZR y). rewrite !overflow_finite by lra.
      repeat split; lra.
    - destruct Hwr as (x & y & -> & -> & Hx & Hy). eauto. }
  destruct Hfv as (x1 & y1 & Hfv & Hx1 & Hy1).
  destruct Hfw as (x2 & y2 & Hfw & Hx2 & Hy2).
  destruct (sub_finite x1 x2 Hx1 Hx2) as [Sx Bx].
  destruct (sub_finite y1 y2 Hy1 Hy2) as [Sy By].
  destruct v as [a1 b1 | u1 u2], w as [a2 b2 | u3 u4]; cbn [asub].
  - split; apply wrap_int64.
  - rewrite Hfv, Hfw, Sx, Sy. split; assumption.
  - rewrite Hfv, Hfw, Sx, Sy. split; assumption.
  - rewrite Hfv, Hfw, Sx, Sy. split; assumption.
Qed.

Lemma sum_of_squares_finite (x y : R) :
  Rabs x <= IZR (2 ^ 500) -> Rabs y <= IZR (2 ^ 500) ->
  add (mul (Finite x) (Finite x)) (mul (Finite y) (Finite y))
  = Finite (x * x + y * y)
  /\ 0 <= x * x + y * y
     <= 2 * IZR (2 ^ 500) * (2 * IZR (2 ^ 500)).
Proof.
  intros Hx Hy. pose proof big_squares as HB. pose proof big_pos as Hpos.
  pose proof (abs_mul_le x x _ _ Hx Hx) as Hxx.
  pose proof (abs_mul_le y y _ _ Hy Hy) as Hyy.
  pose proof (Rle_0_sqr x) as Px. pose proof (Rle_0_sqr y) as Py.
  unfold Rsqr in Px, Py.
  rewrite (Rabs_pos_eq _ Px) in Hxx. rewrite (Rabs_pos_eq _ Py) in Hyy.
  assert (Hbb : 0 <= IZR (2 ^ 500) * IZR (2 ^ 500)) by nra.
  cbn [mul]. rewrite !overflow_finite by (rewrite Rabs_pos_eq; lra).
  cbn [add]. rewrite overflow_finite by (rewrite Rabs_pos_eq; lra).
  split; [reflexivity | lra].
Qed.

Lemma norm_bounded (v : array) :
  bounded v ->
  exists x y,
    astype_float v = (Finite x, Finite y)
    /\ norm v = Finite (R_sqrt.sqrt (x * x + y * y))
    /\ 0 <= R_sqrt.sqrt (x * x + y * y) <= 2 * IZR (2 ^ 500).
Proof.
  intros Hv. destruct (astype_float_bounded v Hv) as (x & y & Hf & Hx & Hy).
  exists x, y. split; [exact Hf|].
  destruct (sum_of_squares_finite x y Hx Hy) as [Hsum [H0 H1]].
  pose proof big_pos as Hpos.
  assert (Hs : 0 <= R_sqrt.sqrt (x * x + y * y) <= 2 * IZR (2 ^ 500)).
  { split; [apply sqrt_pos|].
    rewrite <- (sqrt_square (2 * IZR (2 ^ 500))) by lra.
    apply sqrt_le_1_alt. lra. }
  split; [|exact Hs].
  unfold norm. rewrite Hf, Hsum. unfold sqrt.
  destruct (Rle_dec 0 (x * x + y * y)); [reflexivity | contradiction].
Qed.

Lemma dot_bounded (u v : array) :
  bounded u -> bounded v ->
  exists d,
    dot u v = Finite d
    /\ Rabs d <= 2 * (IZR (2 ^ 500) * IZR (2 ^ 500)).
Proof.
  intros Hu Hv. pose proof big_squares as HB. pose proof big_pos as Hpos.
  assert (Hbb : 0 <= IZR (2 ^ 500) * IZR (2 ^ 500)) by nra.
  assert (Hfloat :
    forall x1 y1 x2 y2,
      Rabs x1 <= IZR (2 ^ 500) -> Rabs y1 <= IZR (2 ^ 500) ->
      Rabs x2 <= IZR (2 ^ 500) -> Rabs y2 <= IZR (2 ^ 500) ->
      add (mul (Finite x1) (Finite x2)) (mul (Finite y1) (Finite y2))
      = Finite (x1 * x2 + y1 * y2)
      /\ Rabs (x1 * x2 + y1 * y2) <= 2 * (IZR (2 ^ 500) * IZR (2 ^ 500))).
  { intros x1 y1 x2 y2 A1 B1 A2 B2.
    pose proof (abs_mul_le _ _ _ _ A1 A2) as Hx.
    pose proof (abs_mul_le _ _ _ _ B1 B2) as Hy.
    assert (Hs : Rabs (x1 * x2 + y1 * y2)
                 <= 2 * (IZR (2 ^ 500) * IZR (2 ^ 500))).
    { eapply Rle_trans; [apply Rabs_triang|]. lra. }
    split; [|exact Hs].
    cbn [mul]. rewrite !overflow_finite by lra.
    cbn [add]. apply overflow_finite. lra. }
  destruct (astype_float_bounded u Hu) as (x1 & y1 & Hfu & A1 & B1).
  destruct (astype_float_bounded v Hv) as (x2 & y2 & Hfv & A2 & B2).
  destruct (Hfloat x1 y1 x2 y2 A1 B1 A2 B2) as [Hd Hb].
  destruct u as [a1 b1 | u1 u2], v as [a2 b2 | u3 u4]; cbn [dot].
  - pose proof (int64_abs _ (wrap_int64 (wrap (a1 * a2) + wrap (b1 * b2))))
      as Hw.
    assert (H63 : IZR (2 ^ 63) <= 2 * (IZR (2 ^ 500) * IZR (2 ^ 500)))
      by (rewrite <- !mult_IZR; zle).
    eexists. split; [apply overflow_finite; lra | lra].
  - rewrite Hfu, Hfv. eauto.
  - rewrite Hfu, Hfv. eauto.
  - rewrite Hfu, Hfv. eauto.
Qed.

Lemma denominator_bounded (ba bc : array) :
  bounded ba -> bounded bc ->
  exists x1 y1 x2 y2,
    astype_float ba = (Finite x1, Finite y1)
    /\ astype_float bc = (Finite x2, Finite y2)
    /\ denominator ba bc
       = Finite (R_sqrt.sqrt (x1 * x1 + y1 * y1)
                 * R_sqrt.sqrt (x2 * x2 + y2 * y2) + epsilon)
    /\ epsilon <= R_sqrt.sqrt (x1 * x1 + y1 * y1)
                  * R_sqrt.sqrt (x2 * x2 + y2 * y2) + epsilon.
Proof.
  intros Ha Hc. pose proof big_squares as HB. pose proof big_pos as Hpos.
  destruct (norm_bounded ba Ha) as (x1 & y1 & Hf1 & Hn1 & H1).
  destruct (norm_bounded bc Hc) as (x2 & y2 & Hf2 & Hn2 & H2).
  exists x1, y1, x2, y2. split; [exact Hf1|]. split; [exact Hf2|].
  set (n1 := R_sqrt.sqrt (x1 * x1 + y1 * y1)) in *.
  set (n2 := R_sqrt.sqrt (x2 * x2 + y2 * y2)) in *.
  assert (Hp : 0 <= n1 * n2 <= 4 * (IZR (2 ^ 500) * IZR (2 ^ 500))) by nra.
  assert (He : 0 < epsilon < 1) by (unfold epsilon; lra).
  split; [|lra].
  unfold denominator. rewrite Hn1, Hn2. cbn [mul].
  rewrite overflow_finite by (rewrite Rabs_pos_eq; lra).
  cbn [add]. apply overflow_finite. rewrite Rabs_pos_eq; lra.
Qed.

Lemma div_finite (d n : R) :
  Rabs d <= 2 * (IZR (2 ^ 500) * IZR (2 ^ 500)) -> epsilon <= n ->
  div (Finite d) (Finite n) = Finite (d / n).
Proof.
  intros Hd Hn. pose proof big_quotient as HQ.
  assert (He : 0 < epsilon) by (unfold epsilon; lra).
  cbn [div]. destruct (Req_dec_T n 0) as [E | _]; [lra|].
  apply overflow_finite.
  unfold Rdiv. rewrite Rabs_mult.
  assert (Hi : Rabs (/ n) <= 1000000).
  { rewrite Rabs_pos_eq by (apply Rlt_le, Rinv_0_lt_compat; lra).
    replace 1000000 with (/ epsilon) by (unfold epsilon; field).
    apply Rinv_le_contravar; lra. }
  pose proof (Rabs_pos d). pose proof (Rabs_pos (/ n)).
  assert (Rabs d * Rabs (/ n)
          <= 2 * (IZR (2 ^ 500) * IZR (2 ^ 500)) * 1000000)
    by (apply Rmult_le_compat; lra).
  lra.
Qed.

Lemma angle_of_cosine (q : R) :
  exists r,
    degrees (arccos (clip (Finite q))) = Finite r
    /\ r = acos (Rmin (Rmax q (-1)) 1) * (180 / PI)
    /\ 0 <= r <= 180.
Proof.
  set (c := Rmin (Rmax q (-1)) 1).
  assert (Hc : -1 <= c <= 1).
  { unfold c. split; [apply Rmin_glb; [apply Rmax_r | lra] | apply Rmin_r]. }
  pose proof (acos_bound c) as Hb. pose proof PI_RGT_0 as Hpi.
  assert (Hk : 0 < 180 / PI) by (apply Rdiv_lt_0_compat; lra).
  assert (Hr : 0 <= acos c * (180 / PI) <= 180).
  { split; [apply Rmult_le_pos; lra|].
    replace 180 with (PI * (180 / PI)) at 2 by (field; lra).
    apply Rmult_le_compat_r; lra. }
  exists (acos c * (180 / PI)). split; [|split; [reflexivity | exact Hr]].
  cbn [clip]. fold c. unfold arccos.
  destruct (Rle_dec (-1) c); [|lra]. destruct (Rle_dec c 1); [|lra].
  unfold degrees. cbn [mul]. apply overflow_finite.
  rewrite Rabs_pos_eq by lra.
  assert (180 <= max_float) by (unfold max_float; zle). lra.
Qed.

(** On arguments in range every step of [calculate_angle] stays finite. *)
Lemma calculate_angle_finite (a b c : Point) :
  in_range a -> in_range b -> in_range c ->
  exists va vb vc d n r,
    np_array a = Some va /\ np_array b = Some vb /\ np_array c = Some vc
    /\ bounded (asub va vb) /\ bounded (asub vc vb)
    /\ dot (asub va vb) (asub vc vb) = Finite d
    /\ denominator (asub va vb) (asub vc vb) = Finite n
    /\ epsilon <= n
    /\ calculate_angle a b c = Some (Finite r)
    /\ r = acos (Rmin (Rmax (d / n) (-1)) 1) * (180 / PI)
    /\ 0 <= r <= 180.
Proof.
  intros Ha Hb Hc.
  destruct (np_array_in_range a Ha) as (va & Hva & _).
  destruct (np_array_in_range b Hb) as (vb & Hvb & _).
  destruct (np_array_in_range c Hc) as (vc & Hvc & _).
  pose proof (asub_bounded a b va vb Ha Hb Hva Hvb) as Hba.
  pose proof (asub_bounded c b vc vb Hc Hb Hvc Hvb) as Hbc.
  destruct (dot_bounded _ _ Hba Hbc) as (d & Hd & Hdb).
  destruct (denominator_bounded _ _ Hba Hbc)
    as (x1 & y1 & x2 & y2 & _ & _ & Hn & Hne).
  destruct (angle_of_cosine
              (d / (R_sqrt.sqrt (x1 * x1 + y1 * y1)
                    * R_sqrt.sqrt (x2 * x2 + y2 * y2) + epsilon)))
    as (r & Hr & Hreq & Hrange).
  exists va, vb, vc, d,
    (R_sqrt.sqrt (x1 * x1 + y1 * y1) * R_sqrt.sqrt (x2 * x2 + y2 * y2)
     + epsilon), r.
  split; [exact Hva|]. split; [exact Hvb|]. split; [exact Hvc|].
  split; [exact Hba|]. split; [exact Hbc|]. split; [exact Hd|].
  split; [exact Hn|]. split; [exact Hne|].
  split; [|split; [exact Hreq | exact Hrange]].
  unfold calculate_angle. rewrite Hva, Hvb, Hvc. cbv zeta.
  rewrite Hd, Hn, (div_finite _ _ Hdb Hne), Hr. reflexivity.
Qed.

(** *** Overflow *)

Lemma overflow_positive (r : R) : max_float < r -> overflow r = PosInf.
Proof.
  intros H. assert (0 <= max_float) by (unfold max_float; zle).
  unfold overflow. rewrite Rabs_pos_eq by lra.
  destruct (Rle_dec r max_float); [lra|].
  destruct (Rlt_dec 0 r); [reflexivity | lra].
Qed.

Lemma sub_zero (x : R) :
  Rabs x <= max_float -> sub (Finite x) (Finite 0) = Finite x.
Proof.
  intros H. unfold sub, neg, add. rewrite Ropp_0, Rplus_0_r.
  apply overflow_finite, H.
Qed.

Lemma mul_zero_zero : mul (Finite 0) (Finite 0) = Finite 0.
Proof. cbn [mul]. rewrite Rmult_0_l. apply overflow_zero. Qed.

Lemma huge_fits : Rabs (IZR (10 ^ 200)) <= max_float.
Proof.
  rewrite Rabs_pos_eq by (apply IZR_le; apply Z.leb_le; vm_compute; reflexivity).
  unfold max_float. zle.
Qed.

Lemma huge_square : mul (Finite (IZR (10 ^ 200))) (Finite (IZR (10 ^ 200))) = PosInf.
Proof.
  cbn [mul]. apply overflow_positive.
  unfold max_float. rewrite <- mult_IZR.
  apply IZR_lt, Z.ltb_lt. vm_compute. reflexivity.
Qed.

Lemma huge_norm :
  norm (FloatArray (Finite (IZR (10 ^ 200))) (Finite 0)) = PosInf.
Proof.
  unfold norm. cbn [astype_float]. rewrite huge_square, mul_zero_zero.
  reflexivity.
Qed.

Lemma zero_norm : norm (FloatArray (Finite 0) (Finite 0)) = Finite 0.
Proof.
  unfold norm. cbn [astype_float]. rewrite mul_zero_zero. cbn [add].
  rewrite Rplus_0_r, overflow_zero. unfold sqrt.
  destruct (Rle_dec 0 0); [|lra]. rewrite sqrt_0. reflexivity.
Qed.

(** C4, as stated for any three points: with float coordinates of
    magnitude 1e200 the squares overflow, the quotient of line 20 is
    [inf / inf] and the function returns [nan], not a finite angle. *)
Lemma calculate_angle_overflow_nan :
  calculate_angle (FloatPoint (IZR (10 ^ 200)) 0) (FloatPoint 0 0)
                  (FloatPoint (IZR (10 ^ 200)) 0)
  = Some NaN.
Proof.
  unfold calculate_angle. cbn [np_array].
  rewrite (overflow_finite _ huge_fits), overflow_zero. cbv zeta.
  cbn [asub astype_float].
  rewrite (sub_zero _ huge_fits).
  rewrite (sub_zero 0) by (rewrite Rabs_R0; unfold max_float; zle).
  unfold denominator. rewrite huge_norm.
  cbn [dot astype_float]. rewrite huge_square, mul_zero_zero.
  reflexivity.
Qed.

(** C9, as stated for any points: with the vertex and [a] at the origin
    and [c] at distance 1e200, [norm(bc)] is [inf], the product [0 * inf] in
    the divisor is [nan], and the function returns [nan], not 90. *)
Lemma calculate_angle_degenerate_nan :
  calculate_angle (FloatPoint 0 0) (FloatPoint 0 0)
                  (FloatPoint (IZR (10 ^ 200)) 0)
  = Some NaN.
Proof.
  unfold calculate_angle. cbn [np_array].
  rewrite (overflow_finite _ huge_fits), overflow_zero. cbv zeta.
  cbn [asub astype_float].
  rewrite (sub_zero _ huge_fits).
  rewrite (sub_zero 0) by (rewrite Rabs_R0; unfold max_float; zle).
  unfold denominator. rewrite huge_norm, zero_norm.
  cbn [mul]. unfold inf_times.
  destruct (Req_dec_T 0 0); [|contradiction].
  cbn [add]. destruct (dot _ _); reflexivity.
Qed.

(** *** Arguments in range *)

(** C4, amended.  For any three points whose coordinates are int64 integers
    (the pixel coordinates the loop passes) or floats of magnitude at most
    2^499, the divisor of line 20 is a finite number not below the epsilon,
    so the quotient is never a division by zero, no step overflows, and
    [calculate_angle] returns a finite angle between 0 and 180 degrees. *)
Theorem calculate_angle_in_range :
  forall a b c : Point,
    in_range a -> in_range b -> in_range c ->
    exists n r : R,
      divisor a b c = Some (Finite n)
      /\ epsilon <= n
      /\ calculate_angle a b c = Some (Finite r)
      /\ 0 <= r <= 180.
Proof.
  intros a b c Ha Hb Hc.
  destruct (calculate_angle_finite a b c Ha Hb Hc)
    as (va & vb & vc & d & n & r & Hva & Hvb & Hvc & _ & _ & _ & Hn & Hne
        & Hr & _ & Hrange).
  exists n, r. split; [|split; [exact Hne | split; [exact Hr | exact Hrange]]].
  unfold divisor. rewrite Hva, Hvb, Hvc, Hn. reflexivity.
Qed.

Lemma calculate_angle_in_range_witness :
  exists n r : R,
    divisor (IntPoint 310 120) (IntPoint 300 200) (IntPoint 300 0)
    = Some (Finite n)
    /\ epsilon <= n
    /\ calculate_angle (IntPoint 310 120) (IntPoint 300 200) (IntPoint 300 0)
       = Some (Finite r)
    /\ 0 <= r <= 180.
Proof.
  apply (calculate_angle_in_range
           (IntPoint 310 120) (IntPoint 300 200) (IntPoint 300 0));
    split; reflexivity.
Defined.

Lemma asub_self (p : Point) (v : array) :
  in_range p -> np_array p = Some v ->
  asub v v = IntArray 0 0 \/ asub v v = FloatArray (Finite 0) (Finite 0).
Proof.
  intros Hp Hv. destruct (np_array_in_range p Hp) as (v' & Hv' & Hr).
  rewrite Hv in Hv'. injection Hv' as <-.
  destruct v as [x y | u w].
  - left. cbn [asub]. rewrite !Z.sub_diag. reflexivity.
  - right. destruct Hr as (x & y & -> & -> & _ & _).
    cbn [asub astype_float]. unfold sub, neg, add.
    rewrite !Rplus_opp_r, overflow_zero. reflexivity.
Qed.

Lemma astype_float_zero (z : array) :
  z = IntArray 0 0 \/ z = FloatArray (Finite 0) (Finite 0) ->
  astype_float z = (Finite 0, Finite 0).
Proof.
  intros [-> | ->]; cbn [astype_float]; [|reflexivity].
  change (IZR 0) with 0. rewrite overflow_zero. reflexivity.
Qed.

Lemma dot_zero (z w : array) :
  z = IntArray 0 0 \/ z = FloatArray (Finite 0) (Finite 0) ->
  bounded w ->
  dot z w = Finite 0 /\ dot w z = Finite 0.
Proof.
  intros Hz Hw.
  pose proof (astype_float_zero z Hz) as Hfz.
  destruct (astype_float_bounded w Hw) as (x & y & Hfw & _ & _).
  assert (Hfloat :
    add (mul (Finite 0) (Finite x)) (mul (Finite 0) (Finite y)) = Finite 0
    /\ add (mul (Finite x) (Finite 0)) (mul (Finite y) (Finite 0)) = Finite 0).
  { cbn [mul]. rewrite !Rmult_0_l, !Rmult_0_r, overflow_zero. cbn [add].
    rewrite Rplus_0_r, overflow_zero. split; reflexivity. }
  destruct Hz as [-> | ->], w as [a b | u v]; cbn [dot];
    try (rewrite Hfw; cbn [astype_float];
         change (IZR 0) with 0; rewrite ?overflow_zero; exact Hfloat);
    try (cbn [astype_float] in Hfw; change (IZR 0) with 0;
         rewrite ?overflow_zero; rewrite Hfw; exact Hfloat).
  rewrite !Z.mul_0_l, !Z.mul_0_r.
  change (wrap (wrap 0 + wrap 0)) with 0%Z. change (IZR 0) with 0.
  rewrite overflow_zero. split; reflexivity.
Qed.

(** C9, amended.  For points whose coordinates are int64 integers or floats
    of magnitude at most 2^499: when [a] or [c] coincides with the vertex
    [b], the dot product is 0, the divisor is finite and positive, the
    cosine is 0 and [calculate_angle] returns exactly 90 degrees. *)
Theorem calculate_angle_degenerate_in_range :
  forall a b c : Point,
    in_range a -> in_range b -> in_range c ->
    a = b \/ c = b ->
    calculate_angle a b c = Some (Finite 90).
Proof.
  intros a b c Ha Hb Hc Hdeg.
  destruct (calculate_angle_finite a b c Ha Hb Hc)
    as (va & vb & vc & d & n & r & Hva & Hvb & Hvc & Hba & Hbc & Hd & _ & Hne
        & Hr & Hreq & _).
  rewrite Hr. do 2 f_equal. rewrite Hreq.
  assert (Hd0 : d = 0).
  { destruct Hdeg as [-> | ->].
    - rewrite Hvb in Hva. injection Hva as <-.
      destruct (dot_zero _ _ (asub_self b vb Hb Hvb) Hbc) as [Hz _].
      rewrite Hz in Hd. injection Hd as <-. reflexivity.
    - rewrite Hvb in Hvc. injection Hvc as <-.
      destruct (dot_zero _ _ (asub_self b vb Hb Hvb) Hba) as [_ Hz].
      rewrite Hz in Hd. injection Hd as <-. reflexivity. }
  subst d. unfold Rdiv. rewrite Rmult_0_l.
  rewrite Rmax_left by lra. rewrite Rmin_left by lra.
  rewrite acos_0. pose proof PI_RGT_0. field. lra.
Qed.

Lemma calculate_angle_degenerate_in_range_witness :
  calculate_angle (IntPoint 300 200) (IntPoint 300 200) (IntPoint 310 120)
  = Some (Finite 90).
Proof.
  apply (calculate_angle_degenerate_in_range
           (IntPoint 300 200) (IntPoint 300 200) (IntPoint 310 120));
    try (split; reflexivity).
  left. reflexivity.
Defined.

(** *** Pixel coordinates *)

Lemma wrap_small (z : Z) : (- 2 ^ 63 <= z < 2 ^ 63)%Z -> wrap z = z.
Proof.
  intros H. unfold wrap. rewrite Z.mod_small by lia. lia.
Qed.

Lemma pixel_in_range (x y : Z) :
  (Z.abs x <= 100000)%Z -> (Z.abs y <= 100000)%Z -> in_range (IntPoint x y).
Proof.
  intros Hx Hy. cbn [in_range]. unfold int64.
  rewrite !andb_true_iff, !Z.leb_le, !Z.ltb_lt. lia.
Qed.

(** On pixel coordinates nothing wraps and nothing overflows: the result
    is the one of exact arithmetic. *)
Lemma pixels_exact (ax ay bx by_ cx cy : Z) :
  (Z.abs ax <= 100000)%Z -> (Z.abs ay <= 100000)%Z ->
  (Z.abs bx <= 100000)%Z -> (Z.abs by_ <= 100000)%Z ->
  (Z.abs cx <= 100000)%Z -> (Z.abs cy <= 100000)%Z ->
  exists r,
    calculate_angle (IntPoint ax ay) (IntPoint bx by_) (IntPoint cx cy)
    = Some (Finite r)
    /\ Angle.calculate_angle (Pose.point (ax, ay)) (Pose.point (bx, by_))
                             (Pose.point (cx, cy))
       = Some r.
Proof.
  intros Hax Hay Hbx Hby Hcx Hcy.
  pose proof (pixel_in_range ax ay Hax Hay) as Ha.
  pose proof (pixel_in_range bx by_ Hbx Hby) as Hb.
  pose proof (pixel_in_range cx cy Hcx Hcy) as Hc.
  destruct (calculate_angle_finite _ _ _ Ha Hb Hc)
    as (va & vb & vc & d & n & r & Hva & Hvb & Hvc & Hba & Hbc & Hd & Hn & Hne
        & Hr & Hreq & _).
  exists r. split; [exact Hr|].
  cbn [np_array in_range] in *.
  destruct Ha as [Ha1 Ha2], Hb as [Hb1 Hb2], Hc as [Hc1 Hc2].
  rewrite Ha1, Ha2 in Hva. rewrite Hb1, Hb2 in Hvb. rewrite Hc1, Hc2 in Hvc.
  cbn [andb] in *.
  injection Hva as <-. injection Hvb as <-. injection Hvc as <-.
  cbn [asub] in *.
  assert (Wax : wrap (ax - bx) = (ax - bx)%Z) by (apply wrap_small; lia).
  assert (Way : wrap (ay - by_) = (ay - by_)%Z) by (apply wrap_small; lia).
  assert (Wcx : wrap (cx - bx) = (cx - bx)%Z) by (apply wrap_small; lia).
  assert (Wcy : wrap (cy - by_) = (cy - by_)%Z) by (apply wrap_small; lia).
  rewrite Wax, Way, Wcx, Wcy in *.
  (* the dot product *)
  cbn [dot] in Hd.
  assert (Px : (Z.abs ((ax - bx) * (cx - bx)) <= 2 ^ 61)%Z).
  { rewrite Z.abs_mul.
    apply Z.le_trans with (200000 * 200000)%Z; [|apply Z.leb_le; reflexivity].
    apply Z.mul_le_mono_nonneg; lia. }
  assert (Py : (Z.abs ((ay - by_) * (cy - by_)) <= 2 ^ 61)%Z).
  { rewrite Z.abs_mul.
    apply Z.le_trans with (200000 * 200000)%Z; [|apply Z.leb_le; reflexivity].
    apply Z.mul_le_mono_nonneg; lia. }
  rewrite (wrap_small ((ax - bx) * (cx - bx))) in Hd by lia.
  rewrite (wrap_small ((ay - by_) * (cy - by_))) in Hd by lia.
  rewrite wrap_small in Hd by lia.
  assert (H63 : forall z, (Z.abs z <= 2 ^ 62)%Z -> Rabs (IZR z) <= max_float).
  { intros z Hz. rewrite <- abs_IZR. unfold max_float.
    eapply Rle_trans; [apply IZR_le, Hz | zle]. }
  rewrite overflow_finite in Hd by (apply H63; lia).
  injection Hd as <-.
  (* the divisor *)
  destruct (denominator_bounded _ _ Hba Hbc)
    as (x1 & y1 & x2 & y2 & Hf1 & Hf2 & Hn' & _).
  rewrite Hn in Hn'. injection Hn' as ->.
  cbn [astype_float] in Hf1, Hf2.
  rewrite !overflow_finite in Hf1, Hf2 by (apply H63; lia).
  injection Hf1 as <- <-. injection Hf2 as <- <-.
  (* the exact computation *)
  rewrite calculate_angle_defined. f_equal. rewrite Hreq.
  unfold Angle.degrees, Angle.clip, Angle.denominator, Angle.norm, Angle.dot,
    Angle.vsub, Pose.point, Angle.epsilon, epsilon.
  cbn [fst snd]. rewrite !plus_IZR, !mult_IZR, !minus_IZR. reflexivity.
Qed.

(** X3. For points with integer pixel coordinates of magnitude at most
    100000, where the int64 dot product does not wrap: the angle is 90
    degrees exactly when the dot product of BA and BC is 0, below 90 exactly
    when it is positive, and above 90 exactly when it is negative. *)
Theorem calculate_angle_sign_pixels :
  forall ax ay bx by_ cx cy : Z,
    (Z.abs ax <= 100000)%Z -> (Z.abs ay <= 100000)%Z ->
    (Z.abs bx <= 100000)%Z -> (Z.abs by_ <= 100000)%Z ->
    (Z.abs cx <= 100000)%Z -> (Z.abs cy <= 100000)%Z ->
    exists r,
      calculate_angle (IntPoint ax ay) (IntPoint bx by_) (IntPoint cx cy)
      = Some (Finite r)
      /\ (r = 90
          <-> ((ax - bx) * (cx - bx) + (ay - by_) * (cy - by_) = 0)%Z)
      /\ (r < 90
          <-> (0 < (ax - bx) * (cx - bx) + (ay - by_) * (cy - by_))%Z)
      /\ (90 < r
          <-> ((ax - bx) * (cx - bx) + (ay - by_) * (cy - by_) < 0)%Z).
Proof.
  intros ax ay bx by_ cx cy Hax Hay Hbx Hby Hcx Hcy.
  destruct (pixels_exact ax ay bx by_ cx cy Hax Hay Hbx Hby Hcx Hcy)
    as (r & Hr & Hideal).
  exists r. split; [exact Hr|].
  rewrite calculate_angle_defined in Hideal. injection Hideal as <-.
  set (a := Pose.point (ax, ay)). set (b := Pose.point (bx, by_)).
  set (c := Pose.point (cx, cy)).
  pose proof (quotient_strict a b c) as Hq.
  rewrite clip_id by lra.
  destruct (quotient_sign a b c) as (Q0 & Q1 & Q2).
  destruct (angle_sign_of_cosine _ Hq) as (S0 & S1 & S2).
  assert (Hdot : Angle.dot (Angle.vsub a b) (Angle.vsub c b)
                 = IZR ((ax - bx) * (cx - bx) + (ay - by_) * (cy - by_))).
  { unfold Angle.dot, Angle.vsub, a, b, c, Pose.point. cbn [fst snd].
    rewrite plus_IZR, !mult_IZR, !minus_IZR. reflexivity. }
  rewrite S0, S1, S2, Q0, Q1, Q2, Hdot. repeat split.
  - apply eq_IZR.
  - intros ->. reflexivity.
  - apply lt_IZR.
  - apply IZR_lt.
  - apply lt_IZR.
  - apply IZR_lt.
Qed.

Lemma calculate_angle_sign_pixels_witness :
  exists r,
    calculate_angle (IntPoint 310 120) (IntPoint 300 200) (IntPoint 300 0)
    = Some (Finite r)
    /\ (r = 90
        <-> ((310 - 300) * (300 - 300) + (120 - 200) * (0 - 200) = 0)%Z)
    /\ (r < 90
        <-> (0 < (310 - 300) * (300 - 300) + (120 - 200) * (0 - 200))%Z)
    /\ (90 < r
        <-> ((310 - 300) * (300 - 300) + (120 - 200) * (0 - 200) < 0)%Z).
Proof.
  apply (calculate_angle_sign_pixels 310 120 300 200 300 0);
    vm_compute; discriminate.
Defined.

End MachineFacts.
